(** * mold: the render/partial rewriting pass of [tree.go]

    A shallow embedding of [processTree], [processNode], [processActionNode],
    [getActionArgs] and [pos], and the properties of the pass.

    Conventions of the embedding.
    - A Go [string] is a [string] (a sequence of bytes); a Go [int] is a [Z]
      (line and column counters are bounded by the length of the source
      text, so the 64-bit wrap-around is never reached); a slice index
      produced by [range] is a [nat].
    - The parse tree of [text/template/parse] is a tree: every node has one
      parent.  The in-place mutations of the pass are therefore modelled by
      explicit state passing: a function that mutates an object it received
      returns the state of that object after the call.
    - A run-time panic of Go (failed type assertion, index out of range) is
      the [Panic] outcome. *)

From Stdlib Require Import ZArith String Ascii List Lia DecimalString.
From stdpp Require Import base list.
Import ListNotations.

#[local] Set Warnings "-register-all".
#[local] Open Scope string_scope.
#[local] Open Scope list_scope.
#[local] Open Scope Z_scope.

(** ** The parse tree ([text/template/parse]) *)

(** [parse.CommandNode]: one command of a pipeline. *)
Record CommandNode_ (N : Type) : Type := mkCommand {
  cmdPos : Z;
  Args : list N
}.
Arguments mkCommand {N} _ _.
Arguments cmdPos {N} _.
Arguments Args {N} _.

(** [parse.PipeNode]: a pipeline, with its declarations and commands. *)
Record PipeNode_ (N : Type) : Type := mkPipe {
  pipePos : Z;
  pipeLine : Z;
  IsAssign : bool;
  Decl : list N;
  Cmds : list (CommandNode_ N)
}.
Arguments mkPipe {N} _ _ _ _ _.
Arguments pipePos {N} _.
Arguments pipeLine {N} _.
Arguments IsAssign {N} _.
Arguments Decl {N} _.
Arguments Cmds {N} _.

(** [parse.ListNode]: a sequence of nodes. *)
Record ListNode_ (N : Type) : Type := mkList {
  listPos : Z;
  Nodes : list N
}.
Arguments mkList {N} _ _.
Arguments listPos {N} _.
Arguments Nodes {N} _.

(** [parse.BranchNode], shared by if, range and with.  [List] and
    [ElseList] are pointers; [None] is the nil pointer. *)
Record BranchNode_ (N : Type) : Type := mkBranch {
  branchPos : Z;
  branchLine : Z;
  branchPipe : PipeNode_ N;
  List : option (ListNode_ N);
  ElseList : option (ListNode_ N)
}.
Arguments mkBranch {N} _ _ _ _ _.
Arguments branchPos {N} _.
Arguments branchLine {N} _.
Arguments branchPipe {N} _.
Arguments List {N} _.
Arguments ElseList {N} _.

(** [parse.Node]: the node kinds of the parser.  [ListNodeP] is a
    [*parse.ListNode] held in the interface, possibly the nil pointer. *)
Inductive Node : Type :=
| TextNode (Pos : Z) (Text : string)
| CommentNode (Pos : Z) (Text : string)
| ActionNode (Pos : Z) (Line : Z) (Pipe : PipeNode_ Node)
| TemplateNode (Pos : Z) (Line : Z) (Name : string)
               (Pipe : option (PipeNode_ Node))
| ListNodeP (l : option (ListNode_ Node))
| IfNode (b : BranchNode_ Node)
| RangeNode (b : BranchNode_ Node)
| WithNode (b : BranchNode_ Node)
| BreakNode (Pos : Z) (Line : Z)
| ContinueNode (Pos : Z) (Line : Z)
| IdentifierNode (Pos : Z) (Ident : string)
| StringNode (Pos : Z) (Quoted : string) (Text : string)
| FieldNode (Pos : Z) (Ident : list string)
| VariableNode (Pos : Z) (Ident : list string)
| ChainNode (Pos : Z) (node : Node) (Field : list string)
| DotNode (Pos : Z)
| NilNode (Pos : Z)
| BoolNode (Pos : Z) (True_ : bool)
| NumberNode (Pos : Z) (Text : string)
| PipeNodeP (p : PipeNode_ Node).

Abbreviation CommandNode := (CommandNode_ Node).
Abbreviation PipeNode := (PipeNode_ Node).
Abbreviation ListNode := (ListNode_ Node).
Abbreviation BranchNode := (BranchNode_ Node).

(** [template.Template], as far as the pass reads it: [t.Name()] and
    [t.Tree.Root]. *)
Record Template : Type := mkTemplate {
  Name : string;
  Root : option ListNode
}.

(** ** Errors *)

(** The error values of the pass: [posErr], the value of [errors.New] and
    the value of [fmt.Errorf] with a [%w] verb. *)
Inductive error : Type :=
| posErr (pos : Z) (message : string)
| errorString (s : string)
| wrapError (msg : string) (err : error).

(** The [Error()] method. *)
Definition Error (e : error) : string :=
  match e with
  | posErr _ message => message
  | errorString s => s
  | wrapError msg _ => msg
  end.

(** The [%d] verb on an [int]. *)
Definition itoa (n : Z) : string := NilZero.string_of_int (Z.to_int n).

(** [fmt.Errorf("%s:%d:%d: %w", name, line, col, err)]. *)
Definition Errorf (name : string) (line col : Z) (err : error) : error :=
  wrapError
    (name ++ ":" ++ itoa line ++ ":" ++ itoa col ++ ": " ++ Error err)%string
    err.

(** The outcome of a call: it returns, or the goroutine panics. *)
Inductive outcome (A : Type) : Type :=
| Done (a : A)
| Panic (msg : string).
Arguments Done {A} _.
Arguments Panic {A} _.

(** ** Constants of the package *)

(** Modelled from the spec: the constant [renderFunc] is declared in a file
    of the package other than [tree.go]; the directive is written [render]. *)
Definition renderFunc : string := "render".

(** Modelled from the spec: the constant [partialFunc] is declared in a file
    of the package other than [tree.go]; the directive is written
    [partial]. *)
Definition partialFunc : string := "partial".

(** ** [getActionArgs] *)

Definition getActionArgs (cmd : CommandNode)
  : string * string * option Node :=
  let fn :=
    match Args cmd !! 0%nat with
    | Some (IdentifierNode _ ident) => ident
    | _ => EmptyString
    end in
  let file :=
    match Args cmd !! 1%nat with
    | Some (StringNode _ _ text) => text
    | _ => EmptyString
    end in
  let field :=
    match Args cmd !! 2%nat with
    | Some (FieldNode p ident) => Some (FieldNode p ident)
    | _ => None
    end in
  (fn, file, field).

(** ** [processActionNode] *)

(** What a call leaves behind: the parent sequence and the node after the
    call, and the returned error. *)
Record rewritten : Type := mkRewritten {
  rwParent : option ListNode;
  rwNode : Node;
  rwErr : option error
}.

(** Lines 111-124: the two assignments to the command and the pipeline,
    the new template node and the store into the parent's slot. *)
Definition replaceAction (parent : ListNode) (index : nat)
    (apos aline : Z) (pipe : PipeNode) (cmd : CommandNode)
    (name : string) (arg : Node) : outcome rewritten :=
  let cmd' := mkCommand (cmdPos cmd) [arg] in
  let pipe' := mkPipe (pipePos pipe) (pipeLine pipe) (IsAssign pipe)
                      (Decl pipe) [cmd'] in
  let tn := TemplateNode apos aline name (Some pipe') in
  if (index <? length (Nodes parent))%nat then
    Done (mkRewritten
            (Some (mkList (listPos parent) (<[index := tn]> (Nodes parent))))
            (ActionNode apos aline pipe') None)
  else Panic "index out of range".

Definition processActionNode (parent : option ListNode) (index : nat)
    (node : Node) (render partial : bool) : outcome rewritten :=
  match parent with
  | None =>
      Done (mkRewritten parent node
              (Some (errorString "processActionNode error: parent node is nil")))
  | Some p =>
      match node with
      | ActionNode apos aline pipe =>
          match Cmds pipe with
          | [] => Panic "index out of range"
          | cmd :: _ =>
              let '(funcName, name, field) := getActionArgs cmd in
              let arg := DotNode 0 in
              if String.eqb funcName partialFunc && partial then
                let arg := match field with Some f => f | None => arg end in
                if String.eqb name EmptyString then
                  Done (mkRewritten parent node
                          (Some (posErr apos
                             "partial: path to partial file is not specified")))
                else replaceAction p index apos aline pipe cmd name arg
              else if String.eqb funcName renderFunc && render then
                let name := if String.eqb name EmptyString then "body" else name in
                replaceAction p index apos aline pipe cmd name arg
              else Done (mkRewritten parent node None)
          end
      | _ => Panic "interface conversion: not *parse.ActionNode"
      end
  end.

(** ** [pos] *)

(** [utf8.DecodeRuneInString] on the bytes at the head of [bs]: the rune
    and its width.  An invalid or short encoding yields [RuneError] with
    width 1. *)
Definition RuneError : Z := 65533.

Definition isCont (b : Z) : bool := (128 <=? b) && (b <=? 191).

Definition decodeRune (bs : list Z) : Z * nat :=
  match bs with
  | [] => (RuneError, 0%nat)
  | b0 :: t =>
      if b0 <? 128 then (b0, 1%nat)
      else if (194 <=? b0) && (b0 <=? 223) then
        match t with
        | b1 :: _ =>
            if isCont b1
            then (Z.lor (Z.shiftl (Z.land b0 31) 6) (Z.land b1 63), 2%nat)
            else (RuneError, 1%nat)
        | _ => (RuneError, 1%nat)
        end
      else if (224 <=? b0) && (b0 <=? 239) then
        let lo := if b0 =? 224 then 160 else 128 in
        let hi := if b0 =? 237 then 159 else 191 in
        match t with
        | b1 :: b2 :: _ =>
            if (lo <=? b1) && (b1 <=? hi) && isCont b2
            then (Z.lor (Z.lor (Z.shiftl (Z.land b0 15) 12)
                               (Z.shiftl (Z.land b1 63) 6))
                        (Z.land b2 63), 3%nat)
            else (RuneError, 1%nat)
        | _ => (RuneError, 1%nat)
        end
      else if (240 <=? b0) && (b0 <=? 244) then
        let lo := if b0 =? 240 then 144 else 128 in
        let hi := if b0 =? 244 then 143 else 191 in
        match t with
        | b1 :: b2 :: b3 :: _ =>
            if (lo <=? b1) && (b1 <=? hi) && isCont b2 && isCont b3
            then (Z.lor (Z.lor (Z.lor (Z.shiftl (Z.land b0 7) 18)
                                      (Z.shiftl (Z.land b1 63) 12))
                               (Z.shiftl (Z.land b2 63) 6))
                        (Z.land b3 63), 4%nat)
            else (RuneError, 1%nat)
        | _ => (RuneError, 1%nat)
        end
      else (RuneError, 1%nat)
  end.

(** The bytes of a string. *)
Definition bytesOf (s : string) : list Z :=
  map (fun c => Z.of_N (N_of_ascii c)) (list_ascii_of_string s).

(** [for i, char := range body]: the pairs (byte index, rune) in order.
    [skip] counts the bytes of the current rune still to pass over. *)
Fixpoint rangeFrom (bs : list Z) (i : Z) (skip : nat) : list (Z * Z) :=
  match bs with
  | [] => []
  | _ :: rest =>
      match skip with
      | S k => rangeFrom rest (i + 1) k
      | O => let '(char, w) := decodeRune bs in
             (i, char) :: rangeFrom rest (i + 1) (Nat.pred w)
      end
  end.

Definition rangeString (body : string) : list (Z * Z) :=
  rangeFrom (bytesOf body) 0 0.

(** The loop of [pos] over the remaining iterations. *)
Fixpoint posLoop (its : list (Z * Z)) (p : Z) (line col : Z) : Z * Z :=
  match its with
  | [] => (line, col)
  | (i, char) :: rest =>
      if i >=? p then (line, col)
      else if char =? 10 then posLoop rest p (line + 1) 1
      else posLoop rest p line (col + 1)
  end.

Definition pos (body : string) (p : Z) : Z * Z :=
  posLoop (rangeString body) p 1 1.

(** ** [processNode] *)

(** What a call of [processNode] leaves behind: the parent sequence and the
    node after the call, and the two results [ts] and [err]. *)
Record visited : Type := mkVisited {
  vParent : option ListNode;
  vNode : Node;
  vTs : list string;
  vErr : option error
}.

(** The closure [appendResult], on the named results [ts] and [err] it
    captures. *)
Definition appendResult (ts : list string) (err : option error)
    (t : list string) (err1 : option error) : list string * option error :=
  let err := match err1 with Some e => Some e | None => err end in
  let ts := match err with None => ts ++ t | Some _ => ts end in
  (ts, err).

(** Lines 55-57: a name that is not empty is appended to [ts], which is
    still empty there. *)
Definition collect (tname : string) : list string :=
  if String.eqb tname EmptyString then [] else [tname].

(** The loop [for i, n := range l.Nodes] of line 66.  [ns] holds the
    elements still to visit, [l] is the sequence as the earlier iterations
    left it.  The element [n] and the slot [i] of [l] are one object: when
    the call has not stored a template node into the slot (which it only
    does for an action node), the slot shows the node as the call left
    it. *)
Definition rangeNodes
    (rec : option ListNode -> nat -> Node -> option error -> outcome visited)
  : list Node -> nat -> ListNode -> list string -> option error ->
    outcome (ListNode * list string * option error) :=
  fix loop ns i l ts err :=
    match ns with
    | [] => Done (l, ts, err)
    | n :: rest =>
        match rec (Some l) i n err with
        | Panic m => Panic m
        | Done r =>
            let l1 := match vParent r with Some p => p | None => l end in
            let l2 := match n with
                      | ActionNode _ _ _ => l1
                      | _ => mkList (listPos l1) (<[i := vNode r]> (Nodes l1))
                      end in
            let '(ts', err') := appendResult ts err (vTs r) (vErr r) in
            loop rest (S i) l2 ts' err'
        end
    end.

(** [processNode(parent, index, l, parentErr, ...)] for a [*parse.ListNode]
    [l]: the early return on [parentErr], then line 65.  Such a node is no
    action node, so [parent] and [index] are not used; the result is the
    sequence after the call, [ts] and [err]. *)
Definition processList
    (rec : option ListNode -> nat -> Node -> option error -> outcome visited)
    (l : option ListNode) (parentErr : option error)
  : outcome (option ListNode * list string * option error) :=
  match parentErr with
  | Some e => Done (l, [], Some e)
  | None =>
      match l with
      | None => Done (None, [], None)
      | Some l0 =>
          match rangeNodes rec (Nodes l0) 0 l0 [] None with
          | Panic m => Panic m
          | Done (l', ts, err) => Done (Some l', ts, err)
          end
      end
  end.

(** Lines 61-64, 70-73 and 74-77: the two calls on [List] and [ElseList]
    of a with, if or range node. *)
Definition processBranch
    (rec : option ListNode -> nat -> Node -> option error -> outcome visited)
    (b : BranchNode)
  : outcome (BranchNode * list string * option error) :=
  match processList rec (List b) None with
  | Panic m => Panic m
  | Done (l1, t1, e1) =>
      let '(ts1, err1) := appendResult [] None t1 e1 in
      match processList rec (ElseList b) err1 with
      | Panic m => Panic m
      | Done (l2, t2, e2) =>
          let '(ts2, err2) := appendResult ts1 err1 t2 e2 in
          Done (mkBranch (branchPos b) (branchLine b) (branchPipe b) l1 l2,
                ts2, err2)
      end
  end.

Section Pass.

Variables render partial : bool.

Fixpoint processNode (parent : option ListNode) (index : nat) (node : Node)
    (parentErr : option error) {struct node} : outcome visited :=
  match parentErr with
  | Some e => Done (mkVisited parent node [] (Some e))
  | None =>
      match node with
      | ActionNode _ _ pipe =>
          match Cmds pipe with
          | [] => Done (mkVisited parent node [] None)
          | cmd :: _ =>
              let '(funcName, tname, _) := getActionArgs cmd in
              if String.eqb funcName renderFunc
                 || String.eqb funcName partialFunc then
                match processActionNode parent index node render partial with
                | Panic m => Panic m
                | Done r =>
                    match rwErr r with
                    | Some e =>
                        Done (mkVisited (rwParent r) (rwNode r) [] (Some e))
                    | None =>
                        Done (mkVisited (rwParent r) (rwNode r)
                                (collect tname) None)
                    end
                end
              else Done (mkVisited parent node (collect tname) None)
          end
      | ListNodeP l =>
          match processList processNode l None with
          | Panic m => Panic m
          | Done (l', ts, err) => Done (mkVisited parent (ListNodeP l') ts err)
          end
      | WithNode b =>
          match processBranch processNode b with
          | Panic m => Panic m
          | Done (b', ts, err) => Done (mkVisited parent (WithNode b') ts err)
          end
      | IfNode b =>
          match processBranch processNode b with
          | Panic m => Panic m
          | Done (b', ts, err) => Done (mkVisited parent (IfNode b') ts err)
          end
      | RangeNode b =>
          match processBranch processNode b with
          | Panic m => Panic m
          | Done (b', ts, err) => Done (mkVisited parent (RangeNode b') ts err)
          end
      | _ => Done (mkVisited parent node [] None)
      end
  end.

End Pass.

(** ** [processTree] *)

(** Lines 14-21: what [processTree] returns for the results [ts] and [err]
    of the traversal. *)
Definition reportResult (name raw : string) (ts : list string)
    (err : option error) : list string * option error :=
  match err with
  | Some (posErr p message) =>
      let '(line, col) := pos raw p in
      (ts, Some (Errorf name line col (posErr p message)))
  | _ => (ts, None)
  end.

(** The root sequence held by a node. *)
Definition asList (n : Node) : option ListNode :=
  match n with
  | ListNodeP l => l
  | _ => None
  end.

(** [processTree] returns [ts] and the error, and leaves the template with
    the tree as the traversal rewrote it. *)
Definition processTree (t : Template) (raw : string) (render partial : bool)
  : outcome (Template * list string * option error) :=
  match processNode render partial None 0 (ListNodeP (Root t)) None with
  | Panic m => Panic m
  | Done r =>
      let '(ts, err) := reportResult (Name t) raw (vTs r) (vErr r) in
      Done (mkTemplate (Name t) (asList (vNode r)), ts, err)
  end.

(** ** Specification-level notions *)

(** The nodes of a sequence pointer; none behind the nil pointer. *)
Definition optNodes (l : option ListNode) : list Node :=
  match l with
  | Some l0 => Nodes l0
  | None => []
  end.

(** The nodes the traversal descends into from a node. *)
Definition children (n : Node) : list Node :=
  match n with
  | ListNodeP l => optNodes l
  | IfNode b | RangeNode b | WithNode b =>
      optNodes (List b) ++ optNodes (ElseList b)
  | _ => []
  end.

(** Induction over the tree the traversal sees: a node has the property
    when the nodes it descends into have it. *)
Section NodeInduction.

Variable P : Node -> Prop.
Hypothesis step : forall n, Forall P (children n) -> P n.

Definition Forall_nodes (rec : forall n, P n) : forall ns, Forall P ns :=
  fix go ns :=
    match ns with
    | [] => @List.Forall_nil _ P
    | x :: r => @List.Forall_cons _ P x r (rec x) (go r)
    end.

Fixpoint Node_walk_ind (n : Node) : P n :=
  step n
    (match n return Forall P (children n) with
     | ListNodeP l =>
         match l return Forall P (optNodes l) with
         | Some l0 => Forall_nodes Node_walk_ind (Nodes l0)
         | None => @List.Forall_nil _ P
         end
     | IfNode b | RangeNode b | WithNode b =>
         proj2 (Forall_app P _ _)
           (conj
              match List b as o return Forall P (optNodes o) with
              | Some l0 => Forall_nodes Node_walk_ind (Nodes l0)
              | None => @List.Forall_nil _ P
              end
              match ElseList b as o return Forall P (optNodes o) with
              | Some l0 => Forall_nodes Node_walk_ind (Nodes l0)
              | None => @List.Forall_nil _ P
              end)
     | _ => @List.Forall_nil _ P
     end).

End NodeInduction.

(** The function name, the name argument and the field argument of an
    action node, read from its first command as [processNode] and
    [processActionNode] read them; an action without a command has none. *)
Definition actionArgs (n : Node) : option (string * string * option Node) :=
  match n with
  | ActionNode _ _ pipe =>
      match Cmds pipe with
      | cmd :: _ => Some (getActionArgs cmd)
      | [] => None
      end
  | _ => None
  end.

(** The literal name argument an action node carries, when it is not
    empty. *)
Definition actionName (n : Node) : list string :=
  match actionArgs n with
  | Some (_, tname, _) => collect tname
  | None => []
  end.

(** [f] on the nodes of a sequence pointer, [empty] on the nil pointer. *)
Definition onNodes {B : Type} (f : list Node -> B) (empty : B)
    (l : option ListNode) : B :=
  match l with
  | Some l0 => f (Nodes l0)
  | None => empty
  end.

(** The literal name arguments of the action nodes of a tree, in document
    order. *)
Fixpoint names (n : Node) : list string :=
  match n with
  | ActionNode _ _ _ => actionName n
  | ListNodeP l => onNodes (flat_map names) [] l
  | IfNode b | RangeNode b | WithNode b =>
      onNodes (flat_map names) [] (List b)
      ++ onNodes (flat_map names) [] (ElseList b)
  | _ => []
  end.

(** The node is an action node that calls [render] or [partial]. *)
Definition isDirective (n : Node) : bool :=
  match actionArgs n with
  | Some (fn, _, _) => String.eqb fn renderFunc || String.eqb fn partialFunc
  | None => false
  end.

(** The tree holds an action node that calls [render] or [partial]. *)
Fixpoint hasDirective (n : Node) : bool :=
  match n with
  | ActionNode _ _ _ => isDirective n
  | ListNodeP l => onNodes (existsb hasDirective) false l
  | IfNode b | RangeNode b | WithNode b =>
      onNodes (existsb hasDirective) false (List b)
      || onNodes (existsb hasDirective) false (ElseList b)
  | _ => false
  end.

(** The message of the authoring error. *)
Definition noPartialPath : string :=
  "partial: path to partial file is not specified".

(** The node is an action node that calls [partial] without a name: its
    byte offset. *)
Definition badPartial (n : Node) : option Z :=
  match n, actionArgs n with
  | ActionNode apos _ _, Some (fn, name, _) =>
      if String.eqb fn partialFunc && String.eqb name EmptyString then Some apos
      else None
  | _, _ => None
  end.

(** The first element of a sequence, in order, on which [f] finds
    something. *)
Definition firstSome {A B : Type} (f : A -> option B)
  : list A -> option B :=
  fix go l :=
    match l with
    | [] => None
    | x :: r => match f x with Some b => Some b | None => go r end
    end.

(** The byte offset of the first action node of a tree, in document order,
    that calls [partial] without a name. *)
Fixpoint firstBad (n : Node) : option Z :=
  match n with
  | ActionNode _ _ _ => badPartial n
  | ListNodeP l => onNodes (firstSome firstBad) None l
  | IfNode b | RangeNode b | WithNode b =>
      match onNodes (firstSome firstBad) None (List b) with
      | Some p => Some p
      | None => onNodes (firstSome firstBad) None (ElseList b)
      end
  | _ => None
  end.

(** The error of the traversal when partial mode is [partial]: the
    positioned error at the first failing action, if any. *)
Definition firstError (partial : bool) (n : Node) : option error :=
  if partial
  then option_map (fun p => posErr p noPartialPath) (firstBad n)
  else None.

(** Line and column as the specification words them: scan the characters
    that start before the offset; a newline increments the line and resets
    the column, any other character increments the column; both start
    at 1. *)
Definition charsBefore (body : string) (p : Z) : list Z :=
  map snd (List.filter (fun ic => fst ic <? p) (rangeString body)).

Definition scanStep (lc : Z * Z) (char : Z) : Z * Z :=
  if char =? 10 then (fst lc + 1, 1) else (fst lc, snd lc + 1).

Definition posSpec (body : string) (p : Z) : Z * Z :=
  fold_left scanStep (charsBefore body p) (1, 1).

(** The text of a formatted error. *)
Definition formatted (name : string) (lc : Z * Z) (message : string)
  : string :=
  (name ++ ":" ++ itoa (fst lc) ++ ":" ++ itoa (snd lc) ++ ": " ++ message)
  %string.


(** *** The pass as a function on trees

    What the pass is expected to leave in a tree, written without parents,
    indices or in-place stores; [processNode_spec] below shows that the
    traversal computes exactly this. *)

(** The pipeline of a rewritten action: the first command alone, with the
    data argument alone. *)
Definition boundPipe (pipe : PipeNode) (cmd : CommandNode) (arg : Node)
  : PipeNode :=
  mkPipe (pipePos pipe) (pipeLine pipe) (IsAssign pipe) (Decl pipe)
         [mkCommand (cmdPos cmd) [arg]].

(** The pipeline and the name of the template node that replaces an action
    node, when the modes select the node and its arguments are valid. *)
Definition rewriteOf (render partial : bool) (n : Node)
  : option (string * PipeNode) :=
  match n with
  | ActionNode _ _ pipe =>
      match Cmds pipe with
      | cmd :: _ =>
          let '(fn, name, field) := getActionArgs cmd in
          if String.eqb fn partialFunc && partial then
            if String.eqb name EmptyString then None
            else Some (name,
                       boundPipe pipe cmd
                         match field with Some f => f | None => DotNode 0 end)
          else if String.eqb fn renderFunc && render then
            Some (if String.eqb name EmptyString then "body" else name,
                  boundPipe pipe cmd (DotNode 0))
          else None
      | [] => None
      end
  | _ => None
  end.

(** The traversal of the tree fails. *)
Definition fails (partial : bool) (n : Node) : bool :=
  match firstError partial n with
  | Some _ => true
  | None => false
  end.

(** A sequence after the pass: the elements are rewritten in order up to
    and including the first one that fails; the elements behind it are as
    they were. *)
Definition afterNodes (rec : Node -> Node) (failing : Node -> bool)
  : list Node -> list Node :=
  fix go ns :=
    match ns with
    | [] => []
    | x :: r => rec x :: (if failing x then r else go r)
    end.

Definition afterList (rec : Node -> Node) (failing : Node -> bool)
    (l : option ListNode) : option ListNode :=
  match l with
  | Some l0 => Some (mkList (listPos l0) (afterNodes rec failing (Nodes l0)))
  | None => None
  end.

Definition afterBranch (rec : Node -> Node) (failing : Node -> bool)
    (b : BranchNode) : BranchNode :=
  mkBranch (branchPos b) (branchLine b) (branchPipe b)
    (afterList rec failing (List b))
    (if failing (ListNodeP (List b)) then ElseList b
     else afterList rec failing (ElseList b)).

Section After.

Variables render partial : bool.

(** What a slot that held [n] holds after the pass has visited it. *)
Fixpoint after (n : Node) : Node :=
  match n with
  | ActionNode apos aline _ =>
      match rewriteOf render partial n with
      | Some (name, pipe') => TemplateNode apos aline name (Some pipe')
      | None => n
      end
  | ListNodeP l => ListNodeP (afterList after (fails partial) l)
  | IfNode b => IfNode (afterBranch after (fails partial) b)
  | RangeNode b => RangeNode (afterBranch after (fails partial) b)
  | WithNode b => WithNode (afterBranch after (fails partial) b)
  | _ => n
  end.

(** The action node object itself after the rewriter has run on it: its
    pipeline is the one the template node received. *)
Definition actionAfter (n : Node) : Node :=
  match n with
  | ActionNode apos aline _ =>
      match rewriteOf render partial n with
      | Some (_, pipe') => ActionNode apos aline pipe'
      | None => n
      end
  | _ => after n
  end.

(** The parent sequence after the traversal has visited [n] with this
    parent and index. *)
Definition parentAfter (parent : option ListNode) (index : nat) (n : Node)
  : option ListNode :=
  match n, rewriteOf render partial n, parent with
  | ActionNode apos aline _, Some (name, pipe'), Some l =>
      Some (mkList (listPos l)
              (<[index := TemplateNode apos aline name (Some pipe')]>
                 (Nodes l)))
  | _, _, _ => parent
  end.

(** The names of the elements of a sequence in front of the first one that
    fails. *)
Fixpoint namesUntil (ns : list Node) : list string :=
  match ns with
  | [] => []
  | x :: r => if fails partial x then [] else names x ++ namesUntil r
  end.

(** The names a call of [processNode] returns for a node. *)
Definition collected (n : Node) : list string :=
  match n with
  | ActionNode _ _ _ => if fails partial n then [] else actionName n
  | ListNodeP l => namesUntil (optNodes l)
  | IfNode b | RangeNode b | WithNode b =>
      if fails partial (ListNodeP (List b)) then []
      else names (ListNodeP (List b))
           ++ (if fails partial (ListNodeP (ElseList b)) then []
               else names (ListNodeP (ElseList b)))
  | _ => []
  end.

End After.

(** The error [processTree] is expected to return: the positioned error of
    the first failing action, formatted against the source text. *)
Definition reportedError (name raw : string) (partial : bool) (n : Node)
  : option error :=
  if partial
  then option_map
         (fun p => Errorf name (fst (pos raw p)) (snd (pos raw p))
                     (posErr p noPartialPath))
         (firstBad n)
  else None.

(** The names of the template-invocation nodes of a tree, in document
    order. *)
Fixpoint invocationNames (n : Node) : list string :=
  match n with
  | TemplateNode _ _ name _ => [name]
  | ListNodeP l => onNodes (flat_map invocationNames) [] l
  | IfNode b | RangeNode b | WithNode b =>
      onNodes (flat_map invocationNames) [] (List b)
      ++ onNodes (flat_map invocationNames) [] (ElseList b)
  | _ => []
  end.

Definition isAction (n : Node) : bool :=
  match n with
  | ActionNode _ _ _ => true
  | _ => false
  end.

Definition isTemplate (n : Node) : bool :=
  match n with
  | TemplateNode _ _ _ _ => true
  | _ => false
  end.

(** The contract of one call of [processNode] without a pending error.  An
    action node needs a parent and an index into it, as the loop of line 66
    gives it. *)
Definition visit_ok (render partial : bool) (n : Node) : Prop :=
  forall parent i,
    (isAction n = true ->
     exists l, parent = Some l /\ (i < length (Nodes l))%nat) ->
    processNode render partial parent i n None =
    Done (mkVisited (parentAfter render partial parent i n)
            (actionAfter render partial n) (collected partial n)
            (firstError partial n)).

(** ** Trees of concrete templates

    The trees are written as [text/template/parse] builds them: an action
    holds one pipeline with one command, and positions are byte offsets
    into the source. *)

Definition dq : string := String "034"%char EmptyString.

Definition quoted (s : string) : string := (dq ++ s ++ dq)%string.

(** The action [{{ args }}] whose first token is at offset [p]. *)
Definition actionAt (p : Z) (args : list Node) : Node :=
  ActionNode p 1 (mkPipe p 1 false [] [mkCommand p args]).

(** The template node the pass builds for an action at offset [p]. *)
Definition invocationAt (p : Z) (name : string) (arg : Node) : Node :=
  TemplateNode p 1 name (Some (mkPipe p 1 false [] [mkCommand p [arg]])).

(** [{{partial "a.html"}}{{render}}{{render "foot" .Foo}}] *)
Definition exampleSource : string :=
  ("{{partial " ++ quoted "a.html" ++ "}}{{render}}{{render "
   ++ quoted "foot" ++ " .Foo}}")%string.

Definition exampleTemplate : Template :=
  mkTemplate "index.html"
    (Some (mkList 0
       [ actionAt 2 [IdentifierNode 2 "partial";
                     StringNode 10 (quoted "a.html") "a.html"];
         actionAt 22 [IdentifierNode 22 "render"];
         actionAt 32 [IdentifierNode 32 "render";
                      StringNode 39 (quoted "foot") "foot";
                      FieldNode 46 ["Foo"]] ])).

Definition exampleRewritten : Template :=
  mkTemplate "index.html"
    (Some (mkList 0
       [ invocationAt 2 "a.html" (DotNode 0);
         invocationAt 22 "body" (DotNode 0);
         invocationAt 32 "foot" (DotNode 0) ])).

(** [{{template "foo"}}] *)
Definition invocationOnly : Template :=
  mkTemplate "page.html" (Some (mkList 0 [TemplateNode 11 1 "foo" None])).

(** [{{partial}}{{lower "x"}}] *)
Definition nameAfterFailure : Template :=
  mkTemplate "page.html"
    (Some (mkList 0
       [ actionAt 2 [IdentifierNode 2 "partial"];
         actionAt 13 [IdentifierNode 13 "lower";
                      StringNode 19 (quoted "x") "x"] ])).

(** A [render] action that is not held by any sequence. *)
Definition orphanRender : Node := actionAt 2 [IdentifierNode 2 "render"].

(** [{{if .Ok}}{{lower "a"}}{{else}}text{{end}}{{upper "b"}}] *)
Definition plainTemplate : Template :=
  mkTemplate "plain.html"
    (Some (mkList 0
       [ IfNode
           (mkBranch 5 1
              (mkPipe 5 1 false [] [mkCommand 5 [FieldNode 5 ["Ok"]]])
              (Some (mkList 10
                 [ actionAt 12 [IdentifierNode 12 "lower";
                                StringNode 18 (quoted "a") "a"] ]))
              (Some (mkList 31 [ TextNode 31 "text" ])));
         actionAt 44 [IdentifierNode 44 "upper";
                      StringNode 50 (quoted "b") "b"] ])).

(** The sources of [invocationOnly] and [nameAfterFailure]. *)
Definition invocationSource : string :=
  ("{{template " ++ quoted "foo" ++ "}}")%string.
Definition nameAfterFailureSource : string :=
  ("{{partial}}{{lower " ++ quoted "x" ++ "}}")%string.

(** [{{partial "p.html" | html}}]: an action with two piped commands. *)
Definition pipedCmd : CommandNode :=
  mkCommand 2 [IdentifierNode 2 "partial";
               StringNode 10 (quoted "p.html") "p.html"].

Definition pipedPipe : PipeNode :=
  mkPipe 2 1 false [] [pipedCmd; mkCommand 21 [IdentifierNode 21 "html"]].

Definition pipedPartial : Node := ActionNode 2 1 pipedPipe.

(** [{{render "head"}}{{if .Ok}}{{partial "p.html"}}{{partial}}{{else}}{{render}}{{end}}{{render "x"}}] *)
Definition failingSource : string :=
  ("{{render " ++ quoted "head" ++ "}}{{if .Ok}}{{partial "
   ++ quoted "p.html" ++ "}}{{partial}}{{else}}{{render}}{{end}}{{render "
   ++ quoted "x" ++ "}}")%string.

Definition failingIf : BranchNode :=
  mkBranch 22 1 (mkPipe 22 1 false [] [mkCommand 22 [FieldNode 22 ["Ok"]]])
    (Some (mkList 27
       [ actionAt 29 [IdentifierNode 29 "partial";
                      StringNode 37 (quoted "p.html") "p.html"];
         actionAt 49 [IdentifierNode 49 "partial"] ]))
    (Some (mkList 66 [ actionAt 68 [IdentifierNode 68 "render"] ])).

Definition failingTemplate : Template :=
  mkTemplate "page.html"
    (Some (mkList 0
       [ actionAt 2 [IdentifierNode 2 "render";
                     StringNode 9 (quoted "head") "head"];
         IfNode failingIf;
         actionAt 85 [IdentifierNode 85 "render";
                      StringNode 92 (quoted "x") "x"] ])).

(** The tree the pass leaves: the actions in front of the failing one are
    template nodes, the others are as they were. *)
Definition failingAfter : Template :=
  mkTemplate "page.html"
    (Some (mkList 0
       [ invocationAt 2 "head" (DotNode 0);
         IfNode
           (mkBranch 22 1
              (mkPipe 22 1 false [] [mkCommand 22 [FieldNode 22 ["Ok"]]])
              (Some (mkList 27
                 [ invocationAt 29 "p.html" (DotNode 0);
                   actionAt 49 [IdentifierNode 49 "partial"] ]))
              (Some (mkList 66 [ actionAt 68 [IdentifierNode 68 "render"] ])));
         actionAt 85 [IdentifierNode 85 "render";
                      StringNode 92 (quoted "x") "x"] ])).

(** A node the pass leaves as it is, without an error. *)
Definition plain_ok (render partial : bool) (n : Node) : Prop :=
  after render partial n = n /\ firstError partial n = None.

(** What [processTree] returned: the reference list, and the number of
    template nodes in the root sequence. *)
Definition references (o : outcome (Template * list string * option error))
  : list string :=
  match o with
  | Done (_, ts, _) => ts
  | Panic _ => []
  end.

Definition rewrittenCount
    (o : outcome (Template * list string * option error)) : nat :=
  match o with
  | Done (t, _, _) => length (List.filter isTemplate (optNodes (Root t)))
  | Panic _ => 0%nat
  end.

(** ** Notions for the further properties *)

(** The error [processTree] returned. *)
Definition errorOf (o : outcome (Template * list string * option error))
  : option error :=
  match o with
  | Done (_, _, err) => err
  | Panic _ => None
  end.

(** The template [processTree] left. *)
Definition templateOf (o : outcome (Template * list string * option error))
  : option Template :=
  match o with
  | Done (t, _, _) => Some t
  | Panic _ => None
  end.

(** The action nodes the traversal reaches, in document order. *)
Fixpoint actions (n : Node) : list Node :=
  match n with
  | ActionNode _ _ _ => [n]
  | ListNodeP l => onNodes (flat_map actions) [] l
  | IfNode b | RangeNode b | WithNode b =>
      onNodes (flat_map actions) [] (List b)
      ++ onNodes (flat_map actions) [] (ElseList b)
  | _ => []
  end.

Definition isBadPartial (n : Node) : bool :=
  match badPartial n with
  | Some _ => true
  | None => false
  end.

(** [rewrites n n']: [n'] is [n] with some of its [render] and [partial]
    actions replaced, each in its slot, by a template node of the same
    position and line; nothing else differs. *)
Inductive rewrites : Node -> Node -> Prop :=
| rewrites_same n : rewrites n n
| rewrites_action apos aline pipe name pipe' :
    isDirective (ActionNode apos aline pipe) = true ->
    rewrites (ActionNode apos aline pipe)
             (TemplateNode apos aline name (Some pipe'))
| rewrites_list lpos ns ns' :
    Forall2 rewrites ns ns' ->
    rewrites (ListNodeP (Some (mkList lpos ns)))
             (ListNodeP (Some (mkList lpos ns')))
| rewrites_if b l1 l2 :
    rewrites (ListNodeP (List b)) (ListNodeP l1) ->
    rewrites (ListNodeP (ElseList b)) (ListNodeP l2) ->
    rewrites (IfNode b)
      (IfNode (mkBranch (branchPos b) (branchLine b) (branchPipe b) l1 l2))
| rewrites_range b l1 l2 :
    rewrites (ListNodeP (List b)) (ListNodeP l1) ->
    rewrites (ListNodeP (ElseList b)) (ListNodeP l2) ->
    rewrites (RangeNode b)
      (RangeNode (mkBranch (branchPos b) (branchLine b) (branchPipe b) l1 l2))
| rewrites_with b l1 l2 :
    rewrites (ListNodeP (List b)) (ListNodeP l1) ->
    rewrites (ListNodeP (ElseList b)) (ListNodeP l2) ->
    rewrites (WithNode b)
      (WithNode (mkBranch (branchPos b) (branchLine b) (branchPipe b) l1 l2)).

(** The action is not rewritten under the modes. *)
Definition kept (render partial : bool) (n : Node) : bool :=
  match rewriteOf render partial n with
  | Some _ => false
  | None => true
  end.

(** The directive an action left in the tree calls is one whose mode is
    off. *)
Definition modeIsOff (render partial : bool) (n : Node) : Prop :=
  match actionArgs n with
  | Some (fn, _, _) =>
      (fn = renderFunc -> render = false)
      /\ (fn = partialFunc -> partial = false)
  | None => True
  end.

(** Two passes in a row, with modes [r1 p1] and then [r2 p2], leave a node
    as one pass with the modes of both does, when that pass does not
    fail. *)
Definition composes (r1 p1 r2 p2 : bool) (n : Node) : Prop :=
  firstError (p1 || p2) n = None ->
  after r2 p2 (after r1 p1 n) = after (r1 || r2) (p1 || p2) n.

(** The number of newline bytes in a sequence of bytes. *)
Definition newlines (bs : list Z) : Z :=
  Z.of_nat (length (List.filter (fun b => b =? 10) bs)).

(** All the bytes of the text are ASCII. *)
Definition isASCII (body : string) : bool :=
  forallb (fun b => b <? 128) (bytesOf body).

(** * Properties *)

#[local] Arguments getActionArgs : simpl never.

(** ** The position of an offset *)

(** The byte indices of a [range] over a string only grow: from index [i]
    on, no iteration starts in front of an offset [p <= i]. *)
Lemma rangeFrom_ge p bs : forall i skip,
  p <= i -> List.filter (fun ic => fst ic <? p) (rangeFrom bs i skip) = [].
Proof.
  induction bs as [|b rest IH]; intros i skip Hp; [done|].
  cbn [rangeFrom]. destruct skip as [|k].
  - destruct (decodeRune (b :: rest)) as [char w]. cbn [List.filter fst].
    destruct (Z.ltb_spec i p); [lia|]. apply IH. lia.
  - apply IH. lia.
Qed.

(** The loop of [pos], which leaves at the first index [>= p], is the scan
    of the characters that start in front of [p]. *)
Lemma posLoop_rangeFrom p bs : forall i skip line col,
  posLoop (rangeFrom bs i skip) p line col =
  fold_left scanStep
    (map snd (List.filter (fun ic => fst ic <? p) (rangeFrom bs i skip)))
    (line, col).
Proof.
  induction bs as [|b rest IH]; intros i skip line col; [done|].
  cbn [rangeFrom]. destruct skip as [|k]; [|apply IH].
  destruct (decodeRune (b :: rest)) as [char w].
  cbn [posLoop List.filter fst].
  destruct (Z.ltb_spec i p) as [Hlt|Hge].
  - destruct (Z.geb_spec i p); [lia|].
    cbn [map snd fold_left]. unfold scanStep at 2. cbn [fst snd].
    destruct (char =? 10); apply IH.
  - destruct (Z.geb_spec i p); [|lia].
    rewrite rangeFrom_ge by lia. done.
Qed.

(** [pos] computes the line and column of the specification. *)
Theorem pos_posSpec body p : pos body p = posSpec body p.
Proof. apply posLoop_rangeFrom. Qed.

(** Lines and columns are counted from 1. *)
Lemma scan_one_based cs : forall lc,
  1 <= fst lc -> 1 <= snd lc ->
  1 <= fst (fold_left scanStep cs lc) /\ 1 <= snd (fold_left scanStep cs lc).
Proof.
  induction cs as [|c r IH]; intros [line col] Hl Hc; [done|].
  cbn [fold_left].
  apply IH; unfold scanStep; destruct (c =? 10); simpl in *; lia.
Qed.

(** ** The traversal computes the functional specification *)

Section Facts.
Variables render partial : bool.

(** Lines 33-35: with an error from the caller nothing is visited. *)
Lemma processNode_parentErr parent i n e :
  processNode render partial parent i n (Some e)
  = Done (mkVisited parent n [] (Some e)).
Proof. destruct n; reflexivity. Qed.

(** The traversal of a sequence pointer, of a with, if or range node,
    written with the calls of [processNode] the source makes. *)
Lemma processNode_list_eq parent i l parentErr :
  processNode render partial parent i (ListNodeP l) parentErr =
  match processList (processNode render partial) l parentErr with
  | Panic m => Panic m
  | Done (l', ts, err) => Done (mkVisited parent (ListNodeP l') ts err)
  end.
Proof. by destruct parentErr. Qed.

Lemma processNode_branch_eq mk parent i b :
  mk = IfNode \/ mk = RangeNode \/ mk = WithNode ->
  processNode render partial parent i (mk b) None =
  match processNode render partial parent i (ListNodeP (List b)) None with
  | Panic m => Panic m
  | Done r1 =>
      let '(ts1, err1) := appendResult [] None (vTs r1) (vErr r1) in
      match
        processNode render partial parent i (ListNodeP (ElseList b)) err1
      with
      | Panic m => Panic m
      | Done r2 =>
          let '(ts2, err2) := appendResult ts1 err1 (vTs r2) (vErr r2) in
          Done (mkVisited parent
                  (mk (mkBranch (branchPos b) (branchLine b) (branchPipe b)
                         (asList (vNode r1)) (asList (vNode r2))))
                  ts2 err2)
      end
  end.
Proof.
  intros Hmk. rewrite processNode_list_eq.
  assert (H : processNode render partial parent i (mk b) None =
              match processBranch (processNode render partial) b with
              | Panic m => Panic m
              | Done (b', ts, err) => Done (mkVisited parent (mk b') ts err)
              end) by (by destruct Hmk as [->|[->| ->]]).
  rewrite H. unfold processBranch.
  destruct (processList _ (List b) None) as [[[l1 t1] e1]|m]; [|done].
  cbn [vTs vErr vNode asList].
  destruct (appendResult [] None t1 e1) as [ts1 err1].
  rewrite processNode_list_eq.
  destruct (processList _ (ElseList b) err1) as [[[l2 t2] e2]|m]; [|done].
  cbn [vTs vErr vNode asList].
  by destruct (appendResult ts1 err1 t2 e2).
Qed.

Lemma firstError_action apos aline pipe :
  firstError partial (ActionNode apos aline pipe) =
  if partial
  then option_map (fun p => posErr p noPartialPath)
         (badPartial (ActionNode apos aline pipe))
  else None.
Proof. reflexivity. Qed.

(** The rewriter on an action node held by a sequence: it stores the
    template node of [rewriteOf], or fails on a [partial] without a name. *)
Lemma processActionNode_spec l i apos aline pipe :
  (i < length (Nodes l))%nat -> Cmds pipe <> [] ->
  processActionNode (Some l) i (ActionNode apos aline pipe) render partial =
  Done (mkRewritten
          (parentAfter render partial (Some l) i (ActionNode apos aline pipe))
          (actionAfter render partial (ActionNode apos aline pipe))
          (firstError partial (ActionNode apos aline pipe))).
Proof.
  intros Hi Hc. rewrite firstError_action.
  unfold processActionNode, parentAfter, actionAfter, badPartial, rewriteOf,
    actionArgs, replaceAction.
  destruct (Cmds pipe) as [|cmd rest]; [done|].
  destruct (getActionArgs cmd) as [[fn name] field].
  apply Nat.ltb_lt in Hi. rewrite Hi.
  destruct (String.eqb fn partialFunc) eqn:Ep, partial,
    (String.eqb name EmptyString) eqn:En, (String.eqb fn renderFunc) eqn:Er, render;
    simpl; try reflexivity.
Qed.


(** Lines 47-59 on such a node. *)
Lemma processNode_action_spec l i apos aline pipe :
  (i < length (Nodes l))%nat ->
  processNode render partial (Some l) i (ActionNode apos aline pipe) None =
  Done (mkVisited
          (parentAfter render partial (Some l) i (ActionNode apos aline pipe))
          (actionAfter render partial (ActionNode apos aline pipe))
          (collected partial (ActionNode apos aline pipe))
          (firstError partial (ActionNode apos aline pipe))).
Proof.
  intros Hi. cbn [processNode].
  destruct (Cmds pipe) as [|cmd rest] eqn:Hc.
  - unfold parentAfter, actionAfter, collected, fails, actionName.
    rewrite firstError_action.
    unfold badPartial, rewriteOf, actionArgs. rewrite Hc.
    by destruct partial.
  - rewrite processActionNode_spec by (done || by rewrite Hc).
    unfold collected, fails, actionName.
    rewrite firstError_action.
    unfold parentAfter, actionAfter, badPartial, rewriteOf, actionArgs.
    rewrite Hc.
    destruct (getActionArgs cmd) as [[fn name] field].
    destruct (String.eqb fn partialFunc) eqn:Ep, partial,
      (String.eqb name EmptyString) eqn:En, (String.eqb fn renderFunc) eqn:Er, render;
      simpl; try reflexivity.
Qed.


(** The first error of a sequence and of a branch, from those of their
    parts. *)
Lemma firstError_list l :
  firstError partial (ListNodeP l) =
  firstSome (firstError partial) (optNodes l).
Proof.
  unfold firstError. destruct l as [l|]; simpl; [|by destruct partial].
  induction (Nodes l) as [|x r IH]; simpl; [by destruct partial|].
  destruct partial; [|by rewrite <- IH].
  destruct (firstBad x); simpl; [done|]. apply IH.
Qed.

Lemma firstError_branch b mk :
  mk = IfNode \/ mk = RangeNode \/ mk = WithNode ->
  firstError partial (mk b) =
  match firstError partial (ListNodeP (List b)) with
  | Some e => Some e
  | None => firstError partial (ListNodeP (ElseList b))
  end.
Proof.
  intros [->|[->| ->]]; unfold firstError; destruct partial; try done;
    simpl; by destruct (onNodes (firstSome firstBad) None (List b)).
Qed.

Lemma names_list l : names (ListNodeP l) = flat_map names (optNodes l).
Proof. by destruct l. Qed.

(** Without a failing element, all names are collected. *)
Lemma namesUntil_ok ns :
  firstSome (firstError partial) ns = None ->
  namesUntil partial ns = flat_map names ns.
Proof.
  induction ns as [|x r IH]; simpl; [done|]. unfold fails.
  destruct (firstError partial x); [done|]. intros H. by rewrite IH.
Qed.

Lemma collected_ok n :
  firstError partial n = None -> collected partial n = names n.
Proof.
  destruct n; try done.
  - simpl. unfold fails. by intros ->.
  - rewrite firstError_list, names_list. apply namesUntil_ok.
  - rewrite (firstError_branch b IfNode) by auto. cbn [collected]. unfold fails.
    destruct (firstError partial (ListNodeP (List b))); [done|].
    intros ->. reflexivity.
  - rewrite (firstError_branch b RangeNode) by auto. cbn [collected].
    unfold fails.
    destruct (firstError partial (ListNodeP (List b))); [done|].
    intros ->. reflexivity.
  - rewrite (firstError_branch b WithNode) by auto. cbn [collected].
    unfold fails.
    destruct (firstError partial (ListNodeP (List b))); [done|].
    intros ->. reflexivity.
Qed.


Lemma list_eta (l : ListNode) : mkList (listPos l) (Nodes l) = l.
Proof. by destruct l. Qed.

(** Once an error is set, the remaining iterations of the loop change
    neither the sequence nor the results. *)
Lemma rangeNodes_stop ns : forall pre l ts e,
  Nodes l = pre ++ ns ->
  rangeNodes (processNode render partial) ns (length pre) l ts (Some e)
  = Done (l, ts, Some e).
Proof.
  induction ns as [|x r IH]; intros pre l ts e Hl; [done|].
  cbn [rangeNodes]. rewrite processNode_parentErr. cbn [vParent vNode vTs vErr].
  assert (Hx : mkList (listPos l) (<[length pre := x]> (Nodes l)) = l).
  { rewrite list_insert_id; [apply list_eta|].
    rewrite Hl. by apply list_lookup_middle. }
  assert (Hs : match x with
               | ActionNode _ _ _ => l
               | _ => mkList (listPos l) (<[length pre := x]> (Nodes l))
               end = l) by (by destruct x).
  rewrite Hs. cbn [appendResult].
  replace (S (length pre)) with (length (pre ++ [x])).
  2:{ rewrite length_app. simpl. lia. }
  apply IH. by rewrite <- app_assoc.
Qed.

(** The slot of the sequence after the visit of its element [x]. *)
Lemma slot_after x pre r l :
  Nodes l = pre ++ x :: r ->
  match x with
  | ActionNode _ _ _ =>
      match parentAfter render partial (Some l) (length pre) x with
      | Some p => p
      | None => l
      end
  | _ =>
      let l1 := match parentAfter render partial (Some l) (length pre) x with
                | Some p => p
                | None => l
                end in
      mkList (listPos l1)
        (<[length pre := actionAfter render partial x]> (Nodes l1))
  end = mkList (listPos l) (pre ++ after render partial x :: r).
Proof.
  intros Hl.
  assert (Hins : forall y, <[length pre := y]> (Nodes l) = pre ++ y :: r).
  { intros y. rewrite Hl.
    by rewrite insert_app_r_alt, Nat.sub_diag by lia. }
  destruct x; cbn [parentAfter actionAfter]; try (by rewrite Hins).
  unfold parentAfter. cbn [after].
  destruct (rewriteOf render partial (ActionNode Pos Line Pipe)) as [[nm pp]|].
  - by rewrite Hins.
  - by rewrite <- Hl, list_eta.
Qed.


(** The loop of line 66 on the elements still to visit, given the contract
    of the calls it makes. *)
Lemma rangeNodes_spec ns : Forall (visit_ok render partial) ns -> forall pre l ts,
  Nodes l = pre ++ ns ->
  rangeNodes (processNode render partial) ns (length pre) l ts None =
  Done (mkList (listPos l)
          (pre ++ afterNodes (after render partial) (fails partial) ns),
        ts ++ namesUntil partial ns,
        firstSome (firstError partial) ns).
Proof.
  induction 1 as [|x r Hx Hr IH]; intros pre l ts Hl.
  - cbn. by rewrite <- Hl, list_eta, app_nil_r.
  - cbn [rangeNodes]. rewrite Hx.
    2:{ intros _. exists l. split; [done|]. rewrite Hl, length_app. simpl. lia. }
    cbn [vParent vNode vTs vErr].
    pose proof (slot_after x pre r l Hl) as Hs. cbn zeta in Hs. rewrite Hs.
    clear Hs. cbn [afterNodes namesUntil firstSome]. unfold fails at 1 3.
    replace (S (length pre))
      with (length (pre ++ [after render partial x])).
    2:{ rewrite length_app. simpl. lia. }
    destruct (firstError partial x) as [e|] eqn:He.
    + cbn [appendResult]. rewrite rangeNodes_stop.
      * by rewrite app_nil_r.
      * cbn. by rewrite <- app_assoc.
    + cbn [appendResult]. rewrite IH.
      * cbn [listPos]. rewrite collected_ok by done.
        by rewrite <- !app_assoc.
      * cbn. by rewrite <- app_assoc.
Qed.

Lemma processList_spec l :
  Forall (visit_ok render partial) (optNodes l) ->
  processList (processNode render partial) l None =
  Done (afterList (after render partial) (fails partial) l,
        namesUntil partial (optNodes l),
        firstError partial (ListNodeP l)).
Proof.
  intros H. rewrite firstError_list. destruct l as [l|]; [|done].
  cbn [processList optNodes afterList].
  pose proof (rangeNodes_spec (Nodes l) H [] l [] eq_refl) as Hr.
  cbn [length app] in Hr. by rewrite Hr.
Qed.

Lemma processList_stop l e :
  processList (processNode render partial) l (Some e) = Done (l, [], Some e).
Proof. done. Qed.

Lemma processBranch_spec b :
  Forall (visit_ok render partial) (optNodes (List b) ++ optNodes (ElseList b)) ->
  processBranch (processNode render partial) b =
  Done (afterBranch (after render partial) (fails partial) b,
        collected partial (IfNode b),
        match firstError partial (ListNodeP (List b)) with
        | Some e => Some e
        | None => firstError partial (ListNodeP (ElseList b))
        end).
Proof.
  intros [H1 H2]%Forall_app. unfold processBranch, afterBranch.
  rewrite processList_spec by done. cbn [collected]. unfold fails.
  destruct (firstError partial (ListNodeP (List b))) as [e|] eqn:He1.
  - cbn [appendResult]. by rewrite processList_stop.
  - cbn [appendResult]. rewrite processList_spec by done.
    rewrite app_nil_l, names_list, namesUntil_ok
      by (by rewrite <- firstError_list).
    destruct (firstError partial (ListNodeP (ElseList b))) as [e|] eqn:He2.
    + cbn [appendResult]. by rewrite app_nil_r.
    + cbn [appendResult].
      by rewrite names_list, namesUntil_ok by (by rewrite <- firstError_list).
Qed.

(** Every call of [processNode] without a pending error returns, and
    returns what the functional specification says. *)
Theorem processNode_spec n : visit_ok render partial n.
Proof.
  induction n as [n IH] using Node_walk_ind. intros parent i Hp.
  destruct n; try (by unfold firstError; destruct partial).
  - destruct (Hp eq_refl) as (l & -> & Hi). by apply processNode_action_spec.
  - cbn [processNode]. by rewrite processList_spec.
  - cbn [processNode]. rewrite processBranch_spec by done.
    by rewrite (firstError_branch b IfNode) by auto.
  - cbn [processNode]. rewrite processBranch_spec by done.
    by rewrite (firstError_branch b RangeNode) by auto.
  - cbn [processNode]. rewrite processBranch_spec by done.
    by rewrite (firstError_branch b WithNode) by auto.
Qed.

End Facts.

(** ** The pass on a whole template *)


(** [processTree] always returns: the rewritten tree, the names in front
    of the first failing element of the root sequence, and the formatted
    error of the first failing action. *)
Lemma processTree_spec t raw render partial :
  processTree t raw render partial =
  Done (mkTemplate (Name t)
          (afterList (after render partial) (fails partial) (Root t)),
        namesUntil partial (optNodes (Root t)),
        reportedError (Name t) raw partial (ListNodeP (Root t))).
Proof.
  unfold processTree. rewrite processNode_spec by done.
  cbn [vNode vTs vErr actionAfter after asList collected].
  unfold firstError, reportedError, reportResult.
  destruct partial; [|done].
  destruct (firstBad (ListNodeP (Root t))) as [p|]; [|done].
  cbn [option_map]. by destruct (pos raw p).
Qed.

Lemma afterNodes_cons rec failing x r :
  afterNodes rec failing (x :: r) =
  rec x :: (if failing x then r else afterNodes rec failing r).
Proof. reflexivity. Qed.

(** A sequence without a failing element is rewritten element by element. *)
Lemma afterNodes_ok render partial ns :
  firstSome (firstError partial) ns = None ->
  afterNodes (after render partial) (fails partial) ns =
  map (after render partial) ns.
Proof.
  induction ns as [|x r IH]; [done|].
  rewrite afterNodes_cons. cbn [firstSome map]. unfold fails at 1. destruct (firstError partial x); [done|].
  intros H. by rewrite IH.
Qed.

Lemma existsb_false {A} (f : A -> bool) l :
  existsb f l = false <-> Forall (fun x => f x = false) l.
Proof.
  induction l as [|x r IH]; simpl.
  - split; [constructor|done].
  - rewrite orb_false_iff, IH. split.
    + intros [? ?]. by constructor.
    + by inversion 1.
Qed.

Lemma firstSome_none {A B} (f : A -> option B) l :
  Forall (fun x => f x = None) l -> firstSome f l = None.
Proof. induction 1 as [|x r Hx _ IH]; [done|]. simpl. by rewrite Hx. Qed.

Lemma hasDirective_children n :
  isAction n = false ->
  hasDirective n = false ->
  Forall (fun x => hasDirective x = false) (children n).
Proof.
  destruct n; intros Ha H; try done; try apply List.Forall_nil.
  - destruct l; [|apply List.Forall_nil]. by apply existsb_false.
  - cbn in H. apply orb_false_iff in H as [H1 H2]. apply Forall_app.
    destruct (List b), (ElseList b); cbn in *;
      split; try apply List.Forall_nil; by apply existsb_false.
  - cbn in H. apply orb_false_iff in H as [H1 H2]. apply Forall_app.
    destruct (List b), (ElseList b); cbn in *;
      split; try apply List.Forall_nil; by apply existsb_false.
  - cbn in H. apply orb_false_iff in H as [H1 H2]. apply Forall_app.
    destruct (List b), (ElseList b); cbn in *;
      split; try apply List.Forall_nil; by apply existsb_false.
Qed.

Section Plain.
Variables render partial : bool.

Lemma fails_None n : firstError partial n = None -> fails partial n = false.
Proof. unfold fails. by intros ->. Qed.

Lemma fails_Some n e : firstError partial n = Some e -> fails partial n = true.
Proof. unfold fails. by intros ->. Qed.

Lemma plain_nodes ns :
  Forall (plain_ok render partial) ns ->
  afterNodes (after render partial) (fails partial) ns = ns
  /\ firstSome (firstError partial) ns = None.
Proof.
  induction 1 as [|x r [Hx He] _ [IH1 IH2]]; [done|].
  rewrite afterNodes_cons. cbn [firstSome]. unfold fails at 1.
  by rewrite He, Hx, IH1.
Qed.

Lemma plain_list l :
  Forall (plain_ok render partial) (optNodes l) ->
  afterList (after render partial) (fails partial) l = l
  /\ firstError partial (ListNodeP l) = None.
Proof.
  intros H. rewrite firstError_list. destruct (plain_nodes _ H) as [H1 H2].
  split; [|done]. destruct l as [l|]; [|done].
  cbn [afterList optNodes] in *. by rewrite H1, list_eta.
Qed.

Lemma plain_branch b :
  Forall (plain_ok render partial) (optNodes (List b) ++ optNodes (ElseList b)) ->
  afterBranch (after render partial) (fails partial) b = b
  /\ firstError partial (ListNodeP (List b)) = None
  /\ firstError partial (ListNodeP (ElseList b)) = None.
Proof.
  intros [H1 H2]%Forall_app.
  destruct (plain_list _ H1) as [A1 E1], (plain_list _ H2) as [A2 E2].
  split; [|done]. unfold afterBranch. rewrite (fails_None _ E1), A1, A2.
  by destruct b.
Qed.

Lemma plain_action apos aline pipe :
  isDirective (ActionNode apos aline pipe) = false ->
  plain_ok render partial (ActionNode apos aline pipe).
Proof.
  unfold plain_ok. intros H. rewrite firstError_action.
  unfold isDirective, badPartial in *. cbn [after]. unfold rewriteOf.
  unfold actionArgs in *.
  destruct (Cmds pipe) as [|cmd rest]; [by destruct partial|].
  destruct (getActionArgs cmd) as [[fn name] field].
  apply orb_false_iff in H as [-> ->]. by destruct partial.
Qed.

(** A tree without [render] and [partial] actions is left as it is and
    raises no error. *)
Lemma plain_unchanged n :
  hasDirective n = false -> plain_ok render partial n.
Proof.
  induction n as [n IH] using Node_walk_ind. intros H.
  assert (Hc : isAction n = false -> Forall (plain_ok render partial) (children n)).
  { intros Ha. pose proof (hasDirective_children n Ha H) as Hk.
    rewrite Forall_forall in IH, Hk. apply Forall_forall. auto. }
  destruct n; try (by split; [|unfold firstError; destruct partial]).
  - by apply plain_action.
  - destruct (plain_list l (Hc eq_refl)) as [A E]. split; [|done].
    cbn [after]. by rewrite A.
  - destruct (plain_branch b (Hc eq_refl)) as (A & E1 & E2). split.
    + cbn [after]. by rewrite A.
    + by rewrite (firstError_branch partial b IfNode), E1 by auto.
  - destruct (plain_branch b (Hc eq_refl)) as (A & E1 & E2). split.
    + cbn [after]. by rewrite A.
    + by rewrite (firstError_branch partial b RangeNode), E1 by auto.
  - destruct (plain_branch b (Hc eq_refl)) as (A & E1 & E2). split.
    + cbn [after]. by rewrite A.
    + by rewrite (firstError_branch partial b WithNode), E1 by auto.
Qed.

End Plain.

(** ** The claims *)

(** Lines 14-21 read alone: an error that is not a [posErr] would be
    answered with a nil error.  A traversal started on an action node that
    no sequence holds returns such an error; [processTree] never starts
    one (see [root_error_is_positioned]). *)
Lemma internal_error_is_dropped :
  processNode true true None 0 orphanRender None =
    Done (mkVisited None orphanRender []
            (Some (errorString "processActionNode error: parent node is nil")))
  /\ forall name raw ts s,
       reportResult name raw ts (Some (errorString s)) = (ts, None).
Proof. split; reflexivity. Qed.

(** From the root sequence of a template the traversal never returns an
    error other than a [posErr]: every action node is visited with the
    sequence that holds it. *)
Lemma root_error_is_positioned t render partial :
  exists r,
    processNode render partial None 0 (ListNodeP (Root t)) None = Done r
    /\ (vErr r = None
        \/ exists p, vErr r = Some (posErr p noPartialPath)).
Proof.
  eexists. split; [by apply processNode_spec|]. cbn [vErr].
  unfold firstError. destruct partial; [|by left].
  destruct (firstBad (ListNodeP (Root t))) as [p|]; [right; by exists p|by left].
Qed.


(** C2, as the code has it.  On the example all three actions are
    rewritten, and the name of the last [render] is collected. *)
Theorem example_rewrites_three :
  processTree exampleTemplate exampleSource true true =
  Done (exampleRewritten, ["a.html"; "foot"], None).
Proof. vm_compute. reflexivity. Qed.

(** C2, refuted as stated: the pass leaves three template nodes, not two,
    and the reference list has a second name. *)
Lemma example_not_two_rewrites :
  rewrittenCount (processTree exampleTemplate exampleSource true true)
    = 3%nat
  /\ references (processTree exampleTemplate exampleSource true true)
     = ["a.html"; "foot"].
Proof. split; vm_compute; reflexivity. Qed.

(** C3, refuted as stated.  A template-invocation node contributes no
    name; and after an error the names of later actions are missing. *)
Lemma reference_list_misses_names :
  invocationNames (ListNodeP (Root invocationOnly)) = ["foo"]
  /\ processTree invocationOnly invocationSource true true
     = Done (invocationOnly, [], None)
  /\ names (ListNodeP (Root nameAfterFailure)) = ["x"]
  /\ references (processTree nameAfterFailure nameAfterFailureSource true true)
     = [].
Proof. repeat split; vm_compute; reflexivity. Qed.

(** C3, as the code has it.  The pass always returns, and when it returns
    no error the reference list is, in document order, the list of the
    literal name arguments of the action nodes of the tree. *)
Theorem references_are_action_names t raw render partial :
  (exists t' ts err, processTree t raw render partial = Done (t', ts, err))
  /\ forall t' ts,
       processTree t raw render partial = Done (t', ts, None) ->
       ts = names (ListNodeP (Root t)).
Proof.
  rewrite processTree_spec. split; [by eauto|].
  intros t' ts [= _ <- Herr]. rewrite names_list.
  apply namesUntil_ok. rewrite <- firstError_list.
  unfold reportedError, firstError in *. destruct partial; [|done].
  by destruct (firstBad (ListNodeP (Root t))).
Qed.

Lemma references_are_action_names_witness :
  processTree exampleTemplate exampleSource true true
    = Done (exampleRewritten, ["a.html"; "foot"], None)
  /\ ["a.html"; "foot"] = names (ListNodeP (Root exampleTemplate)).
Proof.
  split; [vm_compute; reflexivity|].
  apply (proj2 (references_are_action_names exampleTemplate exampleSource
                  true true) exampleRewritten).
  vm_compute. reflexivity.
Defined.

(** Lines 15-18 on a positioned error. *)
Lemma reportResult_posErr name raw ts p message :
  reportResult name raw ts (Some (posErr p message)) =
  (ts, Some (wrapError (formatted name (posSpec raw p) message)
               (posErr p message))).
Proof.
  unfold reportResult. rewrite pos_posSpec. by destruct (posSpec raw p).
Qed.

Lemma posSpec_one_based raw p :
  1 <= fst (posSpec raw p) /\ 1 <= snd (posSpec raw p).
Proof. by apply scan_one_based. Qed.

(** C4.  An action node that calls [partial] without a name, visited in
    partial mode, fails with a [posErr] at its own offset and this message
    and is left in place; [processTree] reports such an error as
    name:line:column: message, line and column being the 1-based scan of
    the source text in front of the offset; and a template whose first
    failing action is this one fails with that text. *)
Theorem partial_without_name_fails
    l i apos aline pipe cmd rest field render :
  Cmds pipe = cmd :: rest ->
  getActionArgs cmd = (partialFunc, EmptyString, field) ->
  processNode render true (Some l) i (ActionNode apos aline pipe) None
    = Done (mkVisited (Some l) (ActionNode apos aline pipe) []
              (Some (posErr apos
                       "partial: path to partial file is not specified")))
  /\ (forall name raw ts,
        reportResult name raw ts
          (Some (posErr apos
                   "partial: path to partial file is not specified"))
        = (ts, Some (wrapError
                       (formatted name (posSpec raw apos)
                          "partial: path to partial file is not specified")
                       (posErr apos
                          "partial: path to partial file is not specified")))
        /\ 1 <= fst (posSpec raw apos) /\ 1 <= snd (posSpec raw apos))
  /\ (forall t raw,
        firstBad (ListNodeP (Root t)) = Some apos ->
        exists t' ts e,
          processTree t raw render true = Done (t', ts, Some e)
          /\ Error e = formatted (Name t) (posSpec raw apos)
                         "partial: path to partial file is not specified").
Proof.
  intros Hc Ha. split; [|split].
  - cbn [processNode]. rewrite Hc, Ha. cbn.
    unfold processActionNode. by rewrite Hc, Ha.
  - intros name raw ts. split; [apply reportResult_posErr|].
    apply posSpec_one_based.
  - intros t raw Hb. rewrite processTree_spec. do 3 eexists.
    split; [unfold reportedError; rewrite Hb; reflexivity|].
    cbn. by rewrite pos_posSpec.
Qed.

Lemma partial_without_name_fails_witness :
  processNode true true (Some (mkList 0 (optNodes (Root nameAfterFailure))))
    0 (actionAt 2 [IdentifierNode 2 "partial"]) None
    = Done (mkVisited (Some (mkList 0 (optNodes (Root nameAfterFailure))))
              (actionAt 2 [IdentifierNode 2 "partial"]) []
              (Some (posErr 2 noPartialPath)))
  /\ reportResult "page.html" nameAfterFailureSource []
       (Some (posErr 2 noPartialPath))
     = ([], Some (wrapError
                    "page.html:1:3: partial: path to partial file is not specified"
                    (posErr 2 noPartialPath))).
Proof.
  destruct (partial_without_name_fails
              (mkList 0 (optNodes (Root nameAfterFailure))) 0 2 1
              (mkPipe 2 1 false [] [mkCommand 2 [IdentifierNode 2 "partial"]])
              (mkCommand 2 [IdentifierNode 2 "partial"]) [] None true
              eq_refl eq_refl) as (H1 & H2 & _).
  split; [exact H1|].
  destruct (H2 "page.html" nameAfterFailureSource []) as [H _].
  exact H.
Defined.

(** C5.  A [render] action visited in render mode is replaced in its slot
    by a template node named by the name argument, or "body" when that is
    empty or absent; the pipeline of the template node holds the dot alone,
    whatever the third argument. *)
Theorem render_is_rewritten
    l i apos aline pipe cmd rest name field partial :
  Cmds pipe = cmd :: rest ->
  getActionArgs cmd = (renderFunc, name, field) ->
  (i < length (Nodes l))%nat ->
  let name' := if String.eqb name EmptyString then "body" else name in
  let pipe' := mkPipe (pipePos pipe) (pipeLine pipe) (IsAssign pipe)
                 (Decl pipe) [mkCommand (cmdPos cmd) [DotNode 0]] in
  let tn := TemplateNode apos aline name' (Some pipe') in
  processNode true partial (Some l) i (ActionNode apos aline pipe) None
    = Done (mkVisited (Some (mkList (listPos l) (<[i := tn]> (Nodes l))))
              (ActionNode apos aline pipe') (collect name) None)
  /\ <[i := tn]> (Nodes l) !! i = Some tn.
Proof.
  intros Hc Ha Hi name' pipe' tn. split.
  - apply Nat.ltb_lt in Hi. cbn [processNode]. rewrite Hc, Ha.
    unfold processActionNode, replaceAction. by rewrite Hc, Ha, Hi.
  - by apply list_lookup_insert_eq.
Qed.

Lemma render_is_rewritten_witness :
  processNode true true (Some (mkList 0 (optNodes (Root exampleTemplate))))
    2 (actionAt 32 [IdentifierNode 32 "render";
                    StringNode 39 (quoted "foot") "foot";
                    FieldNode 46 ["Foo"]]) None
  = Done (mkVisited
            (Some (mkList 0
               (<[2%nat := invocationAt 32 "foot" (DotNode 0)]>
                  (optNodes (Root exampleTemplate)))))
            (ActionNode 32 1
               (mkPipe 32 1 false [] [mkCommand 32 [DotNode 0]]))
            ["foot"] None).
Proof.
  refine (proj1 (render_is_rewritten
            (mkList 0 (optNodes (Root exampleTemplate))) 2 32 1
            (mkPipe 32 1 false []
               [mkCommand 32 [IdentifierNode 32 "render";
                              StringNode 39 (quoted "foot") "foot";
                              FieldNode 46 ["Foo"]]])
            _ [] "foot" (Some (FieldNode 46 ["Foo"])) true
            eq_refl eq_refl _)).
  vm_compute. lia.
Defined.



(** C8.  An action whose function is neither [render] nor [partial], a
    [render] action when render mode is off and a [partial] action when
    partial mode is off are not rewritten and raise no error, whatever the
    other mode: the parent and the node are as before and only the name
    argument is collected. *)
Theorem other_actions_are_left
    l i apos aline pipe cmd rest fn name field render partial :
  Cmds pipe = cmd :: rest ->
  getActionArgs cmd = (fn, name, field) ->
  (fn = renderFunc -> render = false) ->
  (fn = partialFunc -> partial = false) ->
  processNode render partial (Some l) i (ActionNode apos aline pipe) None
    = Done (mkVisited (Some l) (ActionNode apos aline pipe)
              (collect name) None)
  /\ processActionNode (Some l) i (ActionNode apos aline pipe) render partial
     = Done (mkRewritten (Some l) (ActionNode apos aline pipe) None).
Proof.
  intros Hc Ha Hr Hp.
  assert (Hact : processActionNode (Some l) i (ActionNode apos aline pipe)
                   render partial
                 = Done (mkRewritten (Some l) (ActionNode apos aline pipe)
                           None)).
  { unfold processActionNode. rewrite Hc, Ha.
    destruct (String.eqb_spec fn partialFunc) as [E1|_];
      [rewrite (Hp E1)|]; cbn [andb];
      (destruct (String.eqb_spec fn renderFunc) as [E2|_];
        [rewrite (Hr E2)|]; reflexivity). }
  split; [|done]. cbn [processNode]. rewrite Hc, Ha, Hact. cbn.
  by destruct (_ || _).
Qed.

Lemma other_actions_are_left_witness :
  processNode false true (Some (mkList 0 (optNodes (Root exampleTemplate))))
    1 (actionAt 22 [IdentifierNode 22 "render"]) None
  = Done (mkVisited (Some (mkList 0 (optNodes (Root exampleTemplate))))
            (actionAt 22 [IdentifierNode 22 "render"]) [] None).
Proof.
  refine (proj1 (other_actions_are_left
            (mkList 0 (optNodes (Root exampleTemplate))) 1 22 1
            (mkPipe 22 1 false [] [mkCommand 22 [IdentifierNode 22 "render"]])
            _ [] "render" EmptyString None false true
            eq_refl eq_refl _ _)).
  - reflexivity.
  - discriminate.
Defined.

(** C10.  When the rewriter replaces an action, the pipeline it attaches
    to the template node has one command, the first of the action, and
    that command has one argument, the data context; the commands piped
    after the first are not in it. *)
Theorem rewritten_pipeline_is_truncated
    l i apos aline pipe cmd rest fn name field render partial :
  Cmds pipe = cmd :: rest ->
  getActionArgs cmd = (fn, name, field) ->
  (fn = partialFunc /\ partial = true /\ name <> EmptyString)
  \/ (fn = renderFunc /\ render = true) ->
  (i < length (Nodes l))%nat ->
  exists name' arg,
    let pipe' := mkPipe (pipePos pipe) (pipeLine pipe) (IsAssign pipe)
                   (Decl pipe) [mkCommand (cmdPos cmd) [arg]] in
    processActionNode (Some l) i (ActionNode apos aline pipe) render partial
      = Done (mkRewritten
                (Some (mkList (listPos l)
                   (<[i := TemplateNode apos aline name' (Some pipe')]>
                      (Nodes l))))
                (ActionNode apos aline pipe') None)
    /\ (arg = DotNode 0 \/ field = Some arg).
Proof.
  intros Hc Ha Hm Hi. apply Nat.ltb_lt in Hi.
  unfold processActionNode, replaceAction. rewrite Hc, Ha.
  destruct Hm as [(-> & -> & Hn)|(-> & ->)].
  - apply String.eqb_neq in Hn. rewrite Hn, Hi.
    exists name, (match field with Some f => f | None => DotNode 0 end).
    split; [done|]. destruct field; auto.
  - rewrite Hi. cbn. eexists _, (DotNode 0). split; [done|]. by left.
Qed.

Lemma rewritten_pipeline_is_truncated_witness :
  exists name' arg,
    processActionNode (Some (mkList 0 [pipedPartial])) 0 pipedPartial
      true true
    = Done (mkRewritten
              (Some (mkList 0
                 [TemplateNode 2 1 name'
                    (Some (mkPipe 2 1 false [] [mkCommand 2 [arg]]))]))
              (ActionNode 2 1 (mkPipe 2 1 false [] [mkCommand 2 [arg]]))
              None)
    /\ (arg = DotNode 0 \/ None = Some arg).
Proof.
  refine (rewritten_pipeline_is_truncated
            (mkList 0 [pipedPartial]) 0 2 1 pipedPipe pipedCmd
            [mkCommand 21 [IdentifierNode 21 "html"]]
            "partial" "p.html" None true true eq_refl eq_refl
            (or_introl (conj eq_refl (conj eq_refl _))) _).
  - discriminate.
  - vm_compute. lia.
Defined.

Lemma reportResult_fst name raw ts err :
  fst (reportResult name raw ts err) = ts.
Proof.
  unfold reportResult. destruct err as [[p m| |]|]; try done.
  by destruct (pos raw p).
Qed.

Section ShortCircuit.
Variables render partial : bool.

Lemma all_visit_ok ns : Forall (visit_ok render partial) ns.
Proof. apply Forall_forall. intros n _. apply processNode_spec. Qed.

(** A sequence whose first failing element is [x]. *)
Lemma afterNodes_failure pre x post e :
  firstSome (firstError partial) pre = None ->
  firstError partial x = Some e ->
  afterNodes (after render partial) (fails partial) (pre ++ x :: post)
    = map (after render partial) pre ++ after render partial x :: post
  /\ namesUntil partial (pre ++ x :: post) = flat_map names pre
  /\ firstSome (firstError partial) (pre ++ x :: post) = Some e.
Proof.
  intros Hpre Hx. induction pre as [|y r IH].
  - cbn [app map flat_map]. rewrite afterNodes_cons. cbn [namesUntil firstSome].
    unfold fails. by rewrite Hx.
  - cbn [firstSome] in Hpre.
    destruct (firstError partial y) eqn:Hy; [done|].
    destruct (IH Hpre) as (A & B & C).
    cbn [app map flat_map]. rewrite afterNodes_cons.
    cbn [namesUntil firstSome]. rewrite (fails_None partial y Hy), Hy.
    by rewrite A, B, C.
Qed.

End ShortCircuit.

(** C7.  In a sequence whose first failing element is [x], and in a
    branch whose then-body or else-body fails: the error returned is the
    error of the first failing action in document order; the names
    returned are those of the elements in front of [x] (none of [x], none
    of what follows it); the elements in front of [x] are rewritten and
    stay so, [x] is rewritten up to its failing action, and what follows
    is not visited.  [processTree] reports that error and returns that
    tree and those names. *)
Theorem first_error_wins render partial :
  (forall parent i lpos pre x post e,
     firstSome (firstError partial) pre = None ->
     firstError partial x = Some e ->
     processNode render partial parent i
       (ListNodeP (Some (mkList lpos (pre ++ x :: post)))) None
     = Done (mkVisited parent
               (ListNodeP (Some (mkList lpos
                  (map (after render partial) pre
                   ++ after render partial x :: post))))
               (flat_map names pre) (Some e)))
  /\ (forall mk parent i b e,
        In mk [IfNode; RangeNode; WithNode] ->
        firstError partial (ListNodeP (List b)) = Some e ->
        processNode render partial parent i (mk b) None
        = Done (mkVisited parent
                  (mk (mkBranch (branchPos b) (branchLine b) (branchPipe b)
                         (afterList (after render partial) (fails partial)
                            (List b))
                         (ElseList b)))
                  [] (Some e)))
  /\ (forall mk parent i b e,
        In mk [IfNode; RangeNode; WithNode] ->
        firstError partial (ListNodeP (List b)) = None ->
        firstError partial (ListNodeP (ElseList b)) = Some e ->
        processNode render partial parent i (mk b) None
        = Done (mkVisited parent
                  (mk (mkBranch (branchPos b) (branchLine b) (branchPipe b)
                         (afterList (after render partial) (fails partial)
                            (List b))
                         (afterList (after render partial) (fails partial)
                            (ElseList b))))
                  (names (ListNodeP (List b))) (Some e)))
  /\ (forall name raw lpos pre x post e,
        firstSome (firstError partial) pre = None ->
        firstError partial x = Some e ->
        processTree (mkTemplate name (Some (mkList lpos (pre ++ x :: post))))
          raw render partial
        = Done (mkTemplate name
                  (Some (mkList lpos
                     (map (after render partial) pre
                      ++ after render partial x :: post))),
                flat_map names pre,
                snd (reportResult name raw (flat_map names pre) (Some e)))).
Proof.
  assert (Hlist : forall parent i lpos pre x post e,
     firstSome (firstError partial) pre = None ->
     firstError partial x = Some e ->
     processNode render partial parent i
       (ListNodeP (Some (mkList lpos (pre ++ x :: post)))) None
     = Done (mkVisited parent
               (ListNodeP (Some (mkList lpos
                  (map (after render partial) pre
                   ++ after render partial x :: post))))
               (flat_map names pre) (Some e))).
  { intros parent i lpos pre x post e Hpre Hx.
    destruct (afterNodes_failure render partial pre x post e Hpre Hx)
      as (A & B & C).
    rewrite processNode_spec by done.
    cbn [parentAfter actionAfter after afterList collected optNodes Nodes
         listPos].
    rewrite firstError_list. cbn [optNodes Nodes]. by rewrite A, B, C. }
  split; [exact Hlist|split; [|split]].
  - intros mk parent i b e Hmk He.
    assert (Hb : mk = IfNode \/ mk = RangeNode \/ mk = WithNode)
      by (cbn in Hmk; intuition auto).
    rewrite processNode_spec by (by destruct Hb as [->|[->| ->]]).
    rewrite (firstError_branch partial b mk Hb), He.
    destruct Hb as [->|[->| ->]];
      cbn [parentAfter actionAfter after collected]; unfold afterBranch;
      by rewrite (fails_Some partial _ e He).
  - intros mk parent i b e Hmk H1 H2.
    assert (Hb : mk = IfNode \/ mk = RangeNode \/ mk = WithNode)
      by (cbn in Hmk; intuition auto).
    rewrite processNode_spec by (by destruct Hb as [->|[->| ->]]).
    rewrite (firstError_branch partial b mk Hb), H1, H2.
    destruct Hb as [->|[->| ->]];
      cbn [parentAfter actionAfter after collected]; unfold afterBranch;
      by rewrite (fails_None partial _ H1), (fails_Some partial _ e H2),
           app_nil_r.
  - intros name raw lpos pre x post e Hpre Hx. unfold processTree.
    cbn [Root Name]. rewrite (Hlist None 0%nat lpos pre x post e) by done. cbn [vTs vErr vNode asList].
    rewrite (surjective_pairing (reportResult _ _ _ _)).
    by rewrite reportResult_fst.
Qed.

Lemma first_error_wins_witness :
  processTree failingTemplate failingSource true true
  = Done (failingAfter, ["head"],
          Some (wrapError
                  "page.html:1:50: partial: path to partial file is not specified"
                  (posErr 49 noPartialPath))).
Proof.
  exact (proj2 (proj2 (proj2 (first_error_wins true true)))
           "page.html" failingSource 0
           [actionAt 2 [IdentifierNode 2 "render";
                        StringNode 9 (quoted "head") "head"]]
           (IfNode failingIf)
           [actionAt 85 [IdentifierNode 85 "render";
                         StringNode 92 (quoted "x") "x"]]
           (posErr 49 noPartialPath) eq_refl eq_refl).
Defined.

(** A failing call of the rewriter has stored nothing. *)
Lemma processActionNode_error parent i node render partial rw e :
  processActionNode parent i node render partial = Done rw ->
  rwErr rw = Some e ->
  rwParent rw = parent /\ rwNode rw = node.
Proof.
  unfold processActionNode, replaceAction. intros H He.
  destruct parent as [l|]; [|by injection H as <-].
  destruct node; try done.
  destruct (Cmds Pipe) as [|cmd rest]; [done|].
  destruct (getActionArgs cmd) as [[fn name] field].
  destruct (_ && _) in H.
  - destruct (String.eqb name EmptyString); [by injection H as <-|].
    destruct (_ <? _)%nat; [|done]. injection H as <-. done.
  - destruct (_ && _) in H; [|by injection H as <-].
    destruct (_ <? _)%nat; [|done]. injection H as <-. done.
Qed.

(** A call of the rewriter writes at most the slot [i] of the parent. *)
Lemma processActionNode_frame l i node render partial rw :
  processActionNode (Some l) i node render partial = Done rw ->
  exists l',
    rwParent rw = Some l'
    /\ listPos l' = listPos l
    /\ length (Nodes l') = length (Nodes l)
    /\ forall j, j <> i -> Nodes l' !! j = Nodes l !! j.
Proof.
  unfold processActionNode, replaceAction. intros H.
  assert (Hsame : exists l', Some l = Some l' /\ listPos l' = listPos l
            /\ length (Nodes l') = length (Nodes l)
            /\ forall j, j <> i -> Nodes l' !! j = Nodes l !! j)
    by (by exists l).
  assert (Hput : forall tn, exists l',
            Some (mkList (listPos l) (<[i := tn]> (Nodes l))) = Some l'
            /\ listPos l' = listPos l
            /\ length (Nodes l') = length (Nodes l)
            /\ forall j, j <> i -> Nodes l' !! j = Nodes l !! j).
  { intros tn. eexists. split; [done|]. cbn. split; [done|].
    split; [apply length_insert|]. intros j Hj.
    by apply list_lookup_insert_ne. }
  destruct node; try done.
  destruct (Cmds Pipe) as [|cmd rest]; [done|].
  destruct (getActionArgs cmd) as [[fn name] field].
  destruct (_ && _) in H.
  - destruct (String.eqb name EmptyString); [by injection H as <-|].
    destruct (_ <? _)%nat; [|done]. injection H as <-. apply Hput.
  - destruct (_ && _) in H; [|by injection H as <-].
    destruct (_ <? _)%nat; [|done]. injection H as <-. apply Hput.
Qed.

(** C9.  A tree without [render] and [partial] actions comes back as it
    was, with the names of its actions in document order and no error;
    when the rewriter returns an error the parent sequence and the action
    node are as before the call; and a call of the rewriter changes at
    most the slot [index] of the parent sequence. *)
Theorem plain_tree_is_unchanged :
  (forall t raw render partial,
     hasDirective (ListNodeP (Root t)) = false ->
     processTree t raw render partial
     = Done (t, names (ListNodeP (Root t)), None))
  /\ (forall parent i node render partial rw e,
        processActionNode parent i node render partial = Done rw ->
        rwErr rw = Some e ->
        rwParent rw = parent /\ rwNode rw = node)
  /\ (forall l i node render partial rw,
        processActionNode (Some l) i node render partial = Done rw ->
        exists l',
          rwParent rw = Some l'
          /\ listPos l' = listPos l
          /\ length (Nodes l') = length (Nodes l)
          /\ forall j, j <> i -> Nodes l' !! j = Nodes l !! j).
Proof.
  split; [|split].
  - intros [nm rt] raw render partial H. rewrite processTree_spec.
    cbn [Name Root] in *.
    destruct (plain_unchanged render partial _ H) as [Ha He].
    injection Ha as Ha. rewrite Ha, names_list.
    rewrite namesUntil_ok by (by rewrite <- firstError_list).
    unfold reportedError. unfold firstError in He.
    destruct partial; [|done]. by destruct (firstBad _).
  - apply processActionNode_error.
  - apply processActionNode_frame.
Qed.

Lemma plain_tree_is_unchanged_witness :
  processTree plainTemplate EmptyString true true
  = Done (plainTemplate, ["a"; "b"], None)
  /\ processActionNode (Some (mkList 0 (optNodes (Root nameAfterFailure)))) 0
       (actionAt 2 [IdentifierNode 2 "partial"]) true true
     = Done (mkRewritten (Some (mkList 0 (optNodes (Root nameAfterFailure))))
               (actionAt 2 [IdentifierNode 2 "partial"])
               (Some (posErr 2 noPartialPath)))
  /\ rwParent
       (mkRewritten (Some (mkList 0 (optNodes (Root nameAfterFailure))))
          (actionAt 2 [IdentifierNode 2 "partial"])
          (Some (posErr 2 noPartialPath)))
     = Some (mkList 0 (optNodes (Root nameAfterFailure))).
Proof.
  destruct plain_tree_is_unchanged as (H1 & H2 & H3). split; [|split].
  - exact (H1 plainTemplate EmptyString true true eq_refl).
  - reflexivity.
  - exact (proj1 (H2 (Some (mkList 0 (optNodes (Root nameAfterFailure)))) 0%nat
                    (actionAt 2 [IdentifierNode 2 "partial"]) true true
                    _ (posErr 2 noPartialPath) eq_refl eq_refl)).
Defined.

(** ** Further properties of the pass *)

Lemma firstSome_app {A B} (f : A -> option B) l1 l2 :
  firstSome f (l1 ++ l2) =
  match firstSome f l1 with
  | Some b => Some b
  | None => firstSome f l2
  end.
Proof.
  induction l1 as [|x r IH]; [done|]. cbn [app firstSome].
  by destruct (f x).
Qed.

Lemma firstSome_None {A B} (f : A -> option B) l :
  firstSome f l = None <-> Forall (fun x => f x = None) l.
Proof.
  induction l as [|x r IH]; cbn [firstSome].
  - split; [constructor|done].
  - destruct (f x) eqn:Hx.
    + split; [done|]. inversion 1; congruence.
    + rewrite IH. split; [by constructor|by inversion 1].
Qed.

Section Actions.
Context {B : Type}.

Lemma flat_map_actions (f g : Node -> list B) ns :
  Forall (fun x => g x = flat_map f (actions x)) ns ->
  flat_map g ns = flat_map f (flat_map actions ns).
Proof.
  induction 1 as [|x r Hx _ IH]; [done|]. cbn [flat_map].
  by rewrite flat_map_app, Hx, IH.
Qed.

Lemma firstSome_actions (f g : Node -> option B) ns :
  Forall (fun x => g x = firstSome f (actions x)) ns ->
  firstSome g ns = firstSome f (flat_map actions ns).
Proof.
  induction 1 as [|x r Hx _ IH]; [done|]. cbn [flat_map firstSome].
  by rewrite firstSome_app, Hx, IH.
Qed.

End Actions.

Lemma actions_list l : actions (ListNodeP l) = flat_map actions (optNodes l).
Proof. by destruct l. Qed.

Lemma actions_branch mk b :
  mk = IfNode \/ mk = RangeNode \/ mk = WithNode ->
  actions (mk b) =
  flat_map actions (optNodes (List b))
  ++ flat_map actions (optNodes (ElseList b)).
Proof. intros [->|[->| ->]]; cbn; by destruct (List b), (ElseList b). Qed.

(** The names the pass can collect are those of the action nodes it
    reaches. *)
Lemma names_actions n : names n = flat_map actionName (actions n).
Proof.
  induction n as [n IH] using Node_walk_ind.
  destruct n; try done.
  - cbn. by rewrite app_nil_r.
  - rewrite names_list, actions_list. by apply flat_map_actions.
  - rewrite (actions_branch IfNode) by auto. cbn in IH.
    apply Forall_app in IH as [I1 I2]. rewrite flat_map_app.
    rewrite <- (flat_map_actions actionName names _ I1).
    rewrite <- (flat_map_actions actionName names _ I2).
    cbn. by destruct (List b), (ElseList b).
  - rewrite (actions_branch RangeNode) by auto. cbn in IH.
    apply Forall_app in IH as [I1 I2]. rewrite flat_map_app.
    rewrite <- (flat_map_actions actionName names _ I1).
    rewrite <- (flat_map_actions actionName names _ I2).
    cbn. by destruct (List b), (ElseList b).
  - rewrite (actions_branch WithNode) by auto. cbn in IH.
    apply Forall_app in IH as [I1 I2]. rewrite flat_map_app.
    rewrite <- (flat_map_actions actionName names _ I1).
    rewrite <- (flat_map_actions actionName names _ I2).
    cbn. by destruct (List b), (ElseList b).
Qed.

Lemma firstBad_actions n : firstBad n = firstSome badPartial (actions n).
Proof.
  induction n as [n IH] using Node_walk_ind.
  destruct n; try done.
  - cbn [firstBad actions firstSome].
    by destruct (badPartial (ActionNode Pos Line Pipe)).
  - rewrite actions_list. destruct l as [l|]; [|done].
    by apply firstSome_actions.
  - rewrite (actions_branch IfNode) by auto. cbn in IH.
    apply Forall_app in IH as [I1 I2]. rewrite firstSome_app.
    rewrite <- (firstSome_actions badPartial firstBad _ I1).
    rewrite <- (firstSome_actions badPartial firstBad _ I2).
    cbn. by destruct (List b), (ElseList b).
  - rewrite (actions_branch RangeNode) by auto. cbn in IH.
    apply Forall_app in IH as [I1 I2]. rewrite firstSome_app.
    rewrite <- (firstSome_actions badPartial firstBad _ I1).
    rewrite <- (firstSome_actions badPartial firstBad _ I2).
    cbn. by destruct (List b), (ElseList b).
  - rewrite (actions_branch WithNode) by auto. cbn in IH.
    apply Forall_app in IH as [I1 I2]. rewrite firstSome_app.
    rewrite <- (firstSome_actions badPartial firstBad _ I1).
    rewrite <- (firstSome_actions badPartial firstBad _ I2).
    cbn. by destruct (List b), (ElseList b).
Qed.

Lemma firstSome_existsb {A B} (f : A -> option B) l :
  match firstSome f l with Some _ => true | None => false end =
  existsb (fun x => match f x with Some _ => true | None => false end) l.
Proof.
  induction l as [|x r IH]; [done|]. cbn [firstSome existsb].
  by destruct (f x).
Qed.

Lemma firstSome_split {A B} (f : A -> option B) l b :
  firstSome f l = Some b ->
  exists pre a post,
    l = pre ++ a :: post
    /\ Forall (fun x => f x = None) pre
    /\ f a = Some b.
Proof.
  induction l as [|x r IH]; [done|]. cbn [firstSome].
  destruct (f x) as [b'|] eqn:Hx.
  - intros [= ->]. exists [], x, r. by repeat split.
  - intros H. destruct (IH H) as (pre & a & post & -> & Hpre & Ha).
    exists (x :: pre), a, post. repeat split; [|done]. by constructor.
Qed.

Lemma namesUntil_prefix partial ns :
  exists rest, flat_map names ns = namesUntil partial ns ++ rest.
Proof.
  induction ns as [|x r [rest IH]]; [by exists []|].
  cbn [flat_map namesUntil]. destruct (fails partial x).
  - by eexists.
  - exists rest. by rewrite IH, app_assoc.
Qed.

(** X1.  With partial mode off the pass never fails: it returns the full
    list of names and no error, whatever the tree holds. *)
Theorem partial_off_never_fails t raw render :
  exists t',
    processTree t raw render false
    = Done (t', names (ListNodeP (Root t)), None).
Proof.
  rewrite processTree_spec. eexists.
  by rewrite names_list, namesUntil_ok by (by rewrite <- firstError_list).
Qed.

(** X2.  The render mode has no influence on what the pass reports: the
    reference list and the error are the same with render mode on and
    off. *)
Theorem render_mode_does_not_change_report t raw partial r1 r2 :
  references (processTree t raw r1 partial)
  = references (processTree t raw r2 partial)
  /\ errorOf (processTree t raw r1 partial)
     = errorOf (processTree t raw r2 partial).
Proof. by rewrite !processTree_spec. Qed.

(** X3.  With or without an error, the reference list is a prefix of the
    document-order list of the name arguments of the tree: names are
    never reordered, invented or skipped in the middle. *)
Theorem references_are_a_prefix t raw render partial :
  exists rest,
    names (ListNodeP (Root t))
    = references (processTree t raw render partial) ++ rest.
Proof.
  rewrite processTree_spec, names_list. cbn [references].
  apply namesUntil_prefix.
Qed.

(** X4.  The pass fails exactly when partial mode is on and the traversal
    reaches an action that calls [partial] without a name. *)
Theorem fails_iff_bad_partial t raw render partial :
  match errorOf (processTree t raw render partial) with
  | Some _ => true
  | None => false
  end
  = partial && existsb isBadPartial (actions (ListNodeP (Root t))).
Proof.
  rewrite processTree_spec. cbn [errorOf]. unfold reportedError.
  destruct partial; [|done]. cbn [andb].
  rewrite firstBad_actions.
  etransitivity; [|exact (firstSome_existsb badPartial _)].
  by destruct (firstSome badPartial _).
Qed.

(** X5.  The error the pass returns is positioned at the first action, in
    document order, that calls [partial] without a name: every action in
    front of it is free of that defect, and the text of the error is the
    formatted position of that action. *)
Theorem error_is_at_first_bad_action t raw render partial t' ts e :
  processTree t raw render partial = Done (t', ts, Some e) ->
  exists pre apos aline pipe post,
    actions (ListNodeP (Root t)) = pre ++ ActionNode apos aline pipe :: post
    /\ Forall (fun x => isBadPartial x = false) pre
    /\ isBadPartial (ActionNode apos aline pipe) = true
    /\ e = wrapError (formatted (Name t) (posSpec raw apos) noPartialPath)
             (posErr apos noPartialPath).
Proof.
  rewrite processTree_spec. intros [= _ _ He]. unfold reportedError in He.
  destruct partial; [|done]. rewrite firstBad_actions in He.
  destruct (firstSome badPartial _) as [p|] eqn:Hf; [|done].
  destruct (firstSome_split _ _ _ Hf) as (pre & a & post & Hl & Hpre & Ha).
  injection He as <-.
  assert (Hact : exists aline pipe, a = ActionNode p aline pipe).
  { unfold badPartial in Ha. destruct a; try done.
    destruct (actionArgs _) as [[[fn nm] fld]|]; [|done].
    destruct (_ && _); [|done]. injection Ha as ->. by eauto. }
  destruct Hact as (aline & pipe & ->).
  exists pre, p, aline, pipe, post. split; [done|]. split; [|split].
  - eapply Forall_impl; [exact Hpre|]. intros x Hx. unfold isBadPartial.
    by rewrite Hx.
  - unfold isBadPartial. by rewrite Ha.
  - unfold Errorf. rewrite pos_posSpec. done.
Qed.

Lemma error_is_at_first_bad_action_witness :
  exists pre apos aline pipe post,
    actions (ListNodeP (Root failingTemplate))
    = pre ++ ActionNode apos aline pipe :: post
    /\ Forall (fun x => isBadPartial x = false) pre
    /\ isBadPartial (ActionNode apos aline pipe) = true
    /\ wrapError
         "page.html:1:50: partial: path to partial file is not specified"
         (posErr 49 noPartialPath)
       = wrapError
           (formatted (Name failingTemplate) (posSpec failingSource apos)
              noPartialPath)
           (posErr apos noPartialPath).
Proof.
  refine (error_is_at_first_bad_action failingTemplate failingSource
            true true failingAfter ["head"] _ _).
  vm_compute. reflexivity.
Defined.

Lemma firstError_weaken p1 p2 n :
  firstError (p1 || p2) n = None ->
  firstError p1 n = None /\ firstError p2 n = None.
Proof. unfold firstError. by destruct p1, p2. Qed.

Lemma flat_map_filter_actions (k : Node -> bool) (f : Node -> Node) ns :
  Forall (fun x => actions (f x) = List.filter k (actions x)) ns ->
  flat_map actions (map f ns) = List.filter k (flat_map actions ns).
Proof.
  induction 1 as [|x r Hx _ IH]; [done|]. cbn [map flat_map].
  by rewrite List.filter_app, Hx, IH.
Qed.

Section AfterActions.
Variables render partial : bool.

Lemma Forall_ok ns (P : Node -> Prop) :
  Forall (fun x => firstError partial x = None -> P x) ns ->
  firstSome (firstError partial) ns = None ->
  Forall P ns.
Proof.
  intros IH H. apply firstSome_None in H.
  rewrite Forall_forall in *. auto.
Qed.

Lemma actions_after_list l :
  Forall (fun x => firstError partial x = None ->
                   actions (after render partial x)
                   = List.filter (kept render partial) (actions x))
         (optNodes l) ->
  firstError partial (ListNodeP l) = None ->
  flat_map actions
    (optNodes (afterList (after render partial) (fails partial) l))
  = List.filter (kept render partial) (flat_map actions (optNodes l)).
Proof.
  intros IH H. rewrite firstError_list in H. destruct l as [l|]; [|done].
  cbn [afterList optNodes Nodes] in *. rewrite afterNodes_ok by done.
  apply flat_map_filter_actions. by eapply Forall_ok.
Qed.

Lemma actions_after_branch mk b :
  mk = IfNode \/ mk = RangeNode \/ mk = WithNode ->
  Forall (fun x => firstError partial x = None ->
                   actions (after render partial x)
                   = List.filter (kept render partial) (actions x))
         (children (mk b)) ->
  firstError partial (mk b) = None ->
  actions (after render partial (mk b))
  = List.filter (kept render partial) (actions (mk b)).
Proof.
  intros Hmk IH H. rewrite (firstError_branch partial b mk Hmk) in H.
  destruct (firstError partial (ListNodeP (List b))) eqn:H1; [done|].
  assert (IH' : Forall (fun x => firstError partial x = None ->
                   actions (after render partial x)
                   = List.filter (kept render partial) (actions x))
                  (optNodes (List b) ++ optNodes (ElseList b)))
    by (by destruct Hmk as [->|[->| ->]]).
  apply Forall_app in IH' as [I1 I2].
  assert (Ha : after render partial (mk b)
               = mk (afterBranch (after render partial) (fails partial) b))
    by (by destruct Hmk as [->|[->| ->]]).
  rewrite Ha, !(actions_branch mk) by done. unfold afterBranch.
  cbn [List ElseList]. rewrite (fails_None partial _ H1), List.filter_app.
  by rewrite !actions_after_list.
Qed.

Lemma kept_action apos aline pipe :
  actions (after render partial (ActionNode apos aline pipe))
  = List.filter (kept render partial) [ActionNode apos aline pipe].
Proof.
  cbn [after List.filter]. unfold kept.
  by destruct (rewriteOf render partial _) as [[nm pp]|].
Qed.

(** After a pass without error, the actions left in a tree are those the
    modes did not select, in their order. *)
Lemma actions_after n :
  firstError partial n = None ->
  actions (after render partial n)
  = List.filter (kept render partial) (actions n).
Proof.
  induction n as [n IH] using Node_walk_ind. intros H.
  destruct n; try done.
  - apply kept_action.
  - cbn [after]. rewrite !actions_list. by apply actions_after_list.
  - apply (actions_after_branch IfNode); auto.
  - apply (actions_after_branch RangeNode); auto.
  - apply (actions_after_branch WithNode); auto.
Qed.

End AfterActions.

Lemma render_is_not_partial fn :
  String.eqb fn partialFunc = true -> String.eqb fn renderFunc = true -> False.
Proof. intros ->%String.eqb_eq. done. Qed.

Lemma rewritten_is_not_bad render partial n :
  kept render partial n = false -> badPartial n = None.
Proof.
  unfold kept, rewriteOf, badPartial, actionArgs. destruct n; try done.
  destruct (Cmds Pipe) as [|cmd rest]; [done|].
  destruct (getActionArgs cmd) as [[fn name] field].
  destruct (String.eqb fn partialFunc) eqn:Ep; [|done].
  destruct partial, (String.eqb name EmptyString); cbn; try done.
  all: destruct (String.eqb fn renderFunc) eqn:Er; try done;
    by destruct (render_is_not_partial fn).
Qed.

Lemma firstSome_filter {A B} (f : A -> option B) (k : A -> bool) l :
  (forall x, k x = false -> f x = None) ->
  firstSome f (List.filter k l) = firstSome f l.
Proof.
  intros Hk. induction l as [|x r IH]; [done|]. cbn [List.filter firstSome].
  destruct (k x) eqn:Hx; cbn [firstSome]; [by rewrite IH|].
  by rewrite (Hk x Hx).
Qed.

(** A pass without error neither removes nor adds a failing action. *)
Lemma firstBad_after render partial n :
  firstError partial n = None ->
  firstBad (after render partial n) = firstBad n.
Proof.
  intros H. rewrite !firstBad_actions, actions_after by done.
  apply firstSome_filter, rewritten_is_not_bad.
Qed.

Lemma kept_modeIsOff render partial n :
  kept render partial n = true ->
  (partial = true -> badPartial n = None) ->
  modeIsOff render partial n.
Proof.
  unfold kept, rewriteOf, badPartial, modeIsOff, actionArgs.
  destruct n; try done.
  destruct (Cmds Pipe) as [|cmd rest]; [done|].
  destruct (getActionArgs cmd) as [[fn name] field].
  intros Hk Hb. split.
  - intros ->. cbn in Hk. by destruct render.
  - intros ->. cbn in *. destruct partial; [|done].
    destruct (String.eqb name EmptyString); [|done].
    by specialize (Hb eq_refl).
Qed.

(** X6.  After a pass without error, an action that is still in the tree
    and calls [render] (or [partial]) is there because render (or partial)
    mode was off: with a mode on, no directive of its kind is left. *)
Theorem no_selected_directive_is_left t raw render partial t' ts :
  processTree t raw render partial = Done (t', ts, None) ->
  Forall (modeIsOff render partial) (actions (ListNodeP (Root t'))).
Proof.
  rewrite processTree_spec. intros [= <- _ He].
  assert (Hok : firstError partial (ListNodeP (Root t)) = None).
  { unfold reportedError, firstError in *. destruct partial; [|done].
    by destruct (firstBad _). }
  cbn [Root].
  change (ListNodeP (afterList (after render partial) (fails partial) (Root t)))
    with (after render partial (ListNodeP (Root t))).
  rewrite actions_after by done. apply Forall_forall.
  intros a [Ha Hk]%list_elem_of_In%filter_In.
  apply kept_modeIsOff; [done|]. intros ->.
  unfold firstError in Hok. rewrite firstBad_actions in Hok.
  destruct (firstSome badPartial _) eqn:Hf; [done|].
  apply firstSome_None in Hf. rewrite Forall_forall in Hf.
  apply Hf. by apply list_elem_of_In.
Qed.

Lemma no_selected_directive_is_left_witness :
  processTree exampleTemplate exampleSource true true
    = Done (exampleRewritten, ["a.html"; "foot"], None)
  /\ Forall (modeIsOff true true) (actions (ListNodeP (Root exampleRewritten))).
Proof.
  split; [vm_compute; reflexivity|].
  apply (no_selected_directive_is_left exampleTemplate exampleSource true true
           exampleRewritten ["a.html"; "foot"]).
  vm_compute. reflexivity.
Defined.

Section Compose.
Variables r1 p1 r2 p2 : bool.

Lemma after_action r p apos aline pipe :
  after r p (ActionNode apos aline pipe) =
  match rewriteOf r p (ActionNode apos aline pipe) with
  | Some (name, pipe') => TemplateNode apos aline name (Some pipe')
  | None => ActionNode apos aline pipe
  end.
Proof. reflexivity. Qed.

Lemma rewriteOf_nil r p apos aline pipe :
  Cmds pipe = [] -> rewriteOf r p (ActionNode apos aline pipe) = None.
Proof. intros Hc. unfold rewriteOf. by rewrite Hc. Qed.

Lemma rewriteOf_cmd r p apos aline pipe cmd rest fn name field :
  Cmds pipe = cmd :: rest ->
  getActionArgs cmd = (fn, name, field) ->
  rewriteOf r p (ActionNode apos aline pipe) =
  if String.eqb fn partialFunc && p then
    if String.eqb name EmptyString then None
    else Some (name,
               boundPipe pipe cmd
                 match field with Some f => f | None => DotNode 0 end)
  else if String.eqb fn renderFunc && r then
    Some (if String.eqb name EmptyString then "body" else name,
          boundPipe pipe cmd (DotNode 0))
  else None.
Proof. intros Hc Ha. unfold rewriteOf. by rewrite Hc, Ha. Qed.

Lemma compose_action apos aline pipe :
  composes r1 p1 r2 p2 (ActionNode apos aline pipe).
Proof.
  intros H. rewrite firstError_action in H. unfold badPartial, actionArgs in H.
  destruct (Cmds pipe) as [|cmd rest] eqn:Hc.
  - rewrite (after_action r1 p1), rewriteOf_nil by done.
    by rewrite !after_action, !rewriteOf_nil by done.
  - destruct (getActionArgs cmd) as [[fn name] field] eqn:Ha.
    rewrite (after_action r1 p1), (rewriteOf_cmd r1 p1 _ _ _ _ _ _ _ _ Hc Ha).
    rewrite (after_action (r1 || r2)),
      (rewriteOf_cmd (r1 || r2) (p1 || p2) _ _ _ _ _ _ _ _ Hc Ha).
    destruct (String.eqb fn partialFunc) eqn:Ep,
      (String.eqb fn renderFunc) eqn:Er,
      (String.eqb name EmptyString) eqn:En, r1, p1, r2, p2;
      cbn [andb orb option_map after] in H |- *; try done;
      try (by destruct (render_is_not_partial fn));
      rewrite (rewriteOf_cmd _ _ _ _ _ _ _ _ _ _ Hc Ha), Ep, ?Er, ?En; done.
Qed.

Lemma compose_nodes ns :
  Forall (composes r1 p1 r2 p2) ns ->
  firstSome (firstError (p1 || p2)) ns = None ->
  afterNodes (after r2 p2) (fails p2)
    (afterNodes (after r1 p1) (fails p1) ns)
  = afterNodes (after (r1 || r2) (p1 || p2)) (fails (p1 || p2)) ns.
Proof.
  intros IH H. rewrite (afterNodes_ok _ (p1 || p2)) by done.
  apply firstSome_None in H.
  assert (H1 : firstSome (firstError p1) ns = None).
  { apply firstSome_None. eapply Forall_impl; [exact H|].
    intros x Hx. by apply firstError_weaken in Hx as [? ?]. }
  rewrite (afterNodes_ok _ p1) by done.
  assert (H2 : firstSome (firstError p2) (map (after r1 p1) ns) = None).
  { apply firstSome_None, Forall_map. rewrite Forall_forall in *.
    intros x Hin. pose proof (H x Hin) as Hx.
    apply firstError_weaken in Hx as [Hx1 Hx2].
    unfold firstError in *. destruct p2; [|done].
    by rewrite firstBad_after. }
  rewrite (afterNodes_ok _ p2) by done. rewrite map_map.
  apply map_ext_Forall. rewrite Forall_forall in *. intros x Hin.
  apply IH; auto.
Qed.

Lemma compose_list l :
  Forall (composes r1 p1 r2 p2) (optNodes l) ->
  firstError (p1 || p2) (ListNodeP l) = None ->
  afterList (after r2 p2) (fails p2) (afterList (after r1 p1) (fails p1) l)
  = afterList (after (r1 || r2) (p1 || p2)) (fails (p1 || p2)) l.
Proof.
  intros IH H. rewrite firstError_list in H. destruct l as [l|]; [|done].
  cbn [afterList optNodes Nodes listPos] in *. by rewrite compose_nodes.
Qed.

Lemma after_list_eq r p l :
  after r p (ListNodeP l) = ListNodeP (afterList (after r p) (fails p) l).
Proof. reflexivity. Qed.

Lemma compose_branch mk b :
  mk = IfNode \/ mk = RangeNode \/ mk = WithNode ->
  Forall (composes r1 p1 r2 p2) (children (mk b)) ->
  composes r1 p1 r2 p2 (mk b).
Proof.
  intros Hmk IH H. rewrite (firstError_branch _ b mk Hmk) in H.
  destruct (firstError (p1 || p2) (ListNodeP (List b))) eqn:E; [done|].
  assert (IH' : Forall (composes r1 p1 r2 p2) (optNodes (List b) ++ optNodes (ElseList b)))
    by (by destruct Hmk as [->|[->| ->]]).
  apply Forall_app in IH' as [I1 I2].
  destruct (firstError_weaken _ _ _ E) as [E1 E2].
  destruct (firstError_weaken _ _ _ H) as [F1 F2].
  assert (G : firstError p2
                (ListNodeP (afterList (after r1 p1) (fails p1) (List b)))
              = None).
  { rewrite <- after_list_eq. unfold firstError in *. destruct p2; [|done].
    rewrite firstBad_after by done.
    destruct p1; by destruct (firstBad (ListNodeP (List b))). }
  assert (Ha : forall r p b0, after r p (mk b0)
               = mk (afterBranch (after r p) (fails p) b0))
    by (by destruct Hmk as [->|[->| ->]]).
  rewrite !Ha. unfold afterBranch. cbn [branchPos branchLine branchPipe List
    ElseList].
  rewrite (fails_None _ _ E), (fails_None _ _ E1), (fails_None _ _ G).
  by rewrite !compose_list.
Qed.

(** Two passes in a row rewrite a tree as one pass with the modes of both,
    when that pass finds no failing action. *)
Lemma after_compose n : composes r1 p1 r2 p2 n.
Proof.
  induction n as [n IH] using Node_walk_ind.
  destruct n; try (by intros _).
  - apply compose_action.
  - intros H. rewrite !after_list_eq. f_equal. by apply compose_list.
  - by apply (compose_branch IfNode); auto.
  - by apply (compose_branch RangeNode); auto.
  - by apply (compose_branch WithNode); auto.
Qed.

End Compose.

Lemma no_error_reported name raw partial n :
  reportedError name raw partial n = None <-> firstError partial n = None.
Proof.
  unfold reportedError, firstError. destruct partial; [|done].
  by destruct (firstBad n).
Qed.

Lemma compose_passes t raw raw2 r1 p1 r2 p2 t12 ts :
  processTree t raw (r1 || r2) (p1 || p2) = Done (t12, ts, None) ->
  exists t1 ts2,
    processTree t raw r1 p1 = Done (t1, ts, None)
    /\ processTree t1 raw2 r2 p2 = Done (t12, ts2, None).
Proof.
  rewrite !processTree_spec. intros [= <- <- He].
  apply no_error_reported in He.
  destruct (firstError_weaken _ _ _ He) as [H1 H2].
  eexists _, _. split.
  - rewrite (proj2 (no_error_reported _ _ _ _) H1).
    rewrite !namesUntil_ok by (by rewrite <- firstError_list). reflexivity.
  - rewrite processTree_spec. cbn [Name Root].
    assert (G : firstError p2
                  (ListNodeP (afterList (after r1 p1) (fails p1) (Root t)))
                = None).
    { change (firstError p2 (after r1 p1 (ListNodeP (Root t))) = None).
      unfold firstError in *. destruct p2; [|done].
      rewrite firstBad_after by done.
      destruct p1; by destruct (firstBad (ListNodeP (Root t))). }
    rewrite (proj2 (no_error_reported _ _ _ _) G).
    pose proof (after_compose r1 p1 r2 p2 (ListNodeP (Root t)) He) as Hc.
    cbn [after] in Hc. injection Hc as ->. reflexivity.
Qed.

(** X7.  Two passes compose: when the pass with the modes of both raises
    no error, running a pass with the first modes and then a pass with the
    second modes on its result raises no error either and leaves exactly
    the tree of the single pass; the first pass returns the same reference
    list. *)
Theorem passes_compose t raw raw2 r1 p1 r2 p2 t12 ts :
  processTree t raw (r1 || r2) (p1 || p2) = Done (t12, ts, None) ->
  exists t1 ts2,
    processTree t raw r1 p1 = Done (t1, ts, None)
    /\ processTree t1 raw2 r2 p2 = Done (t12, ts2, None).
Proof. apply compose_passes. Qed.

Lemma passes_compose_witness :
  exists t1 ts2,
    processTree exampleTemplate exampleSource true false
      = Done (t1, ["a.html"; "foot"], None)
    /\ processTree t1 EmptyString false true
       = Done (exampleRewritten, ts2, None).
Proof.
  refine (passes_compose exampleTemplate exampleSource EmptyString
            true false false true exampleRewritten ["a.html"; "foot"] _).
  vm_compute. reflexivity.
Defined.

(** X8.  A second pass is a no-op on the tree: when a pass raised no
    error, the same pass on its result leaves that result as it is and
    raises no error. *)
Theorem second_pass_changes_nothing t raw raw2 render partial t' ts :
  processTree t raw render partial = Done (t', ts, None) ->
  exists ts', processTree t' raw2 render partial = Done (t', ts', None).
Proof.
  intros H.
  assert (H' : processTree t raw (render || render) (partial || partial)
               = Done (t', ts, None)) by (by rewrite !orb_diag).
  destruct (compose_passes t raw raw2 _ _ _ _ _ _ H')
    as (t1 & ts2 & H1 & H2).
  rewrite H in H1. injection H1 as <-. by exists ts2.
Qed.

Lemma second_pass_changes_nothing_witness :
  exists ts',
    processTree exampleRewritten exampleSource true true
    = Done (exampleRewritten, ts', None).
Proof.
  refine (second_pass_changes_nothing exampleTemplate exampleSource
            exampleSource true true exampleRewritten ["a.html"; "foot"] _).
  vm_compute. reflexivity.
Defined.

Section Frame.
Variables render partial : bool.

Lemma rewrites_nodes ns :
  Forall (fun x => rewrites x (after render partial x)) ns ->
  Forall2 rewrites ns
    (afterNodes (after render partial) (fails partial) ns).
Proof.
  induction 1 as [|x r Hx _ IH]; [constructor|].
  rewrite afterNodes_cons. constructor; [done|].
  destruct (fails partial x); [|done].
  clear. induction r; constructor; [apply rewrites_same|done].
Qed.

Lemma rewrites_listp l :
  Forall (fun x => rewrites x (after render partial x)) (optNodes l) ->
  rewrites (ListNodeP l)
    (ListNodeP (afterList (after render partial) (fails partial) l)).
Proof.
  destruct l as [[lpos ns]|]; [|intros _; apply rewrites_same].
  intros H. cbn. by apply rewrites_list, rewrites_nodes.
Qed.

Lemma rewrites_else b :
  Forall (fun x => rewrites x (after render partial x))
    (optNodes (ElseList b)) ->
  rewrites (ListNodeP (ElseList b))
    (ListNodeP
       (if fails partial (ListNodeP (List b)) then ElseList b
        else afterList (after render partial) (fails partial) (ElseList b))).
Proof.
  intros H. destruct (fails partial _); [apply rewrites_same|].
  by apply rewrites_listp.
Qed.

Lemma rewriteOf_directive n :
  kept render partial n = false -> isDirective n = true.
Proof.
  unfold kept, rewriteOf, isDirective, actionArgs. destruct n; try done.
  destruct (Cmds Pipe) as [|cmd rest]; [done|].
  destruct (getActionArgs cmd) as [[fn name] field].
  destruct (String.eqb fn partialFunc), (String.eqb fn renderFunc);
    cbn; done.
Qed.

(** What the pass leaves of a node differs from it only by template nodes
    standing where [render] and [partial] actions stood. *)
Lemma after_rewrites n : rewrites n (after render partial n).
Proof.
  induction n as [n IH] using Node_walk_ind.
  destruct n; try apply rewrites_same.
  - cbn [after].
    destruct (rewriteOf render partial _) as [[nm pp]|] eqn:Hr;
      [|apply rewrites_same].
    apply rewrites_action, rewriteOf_directive. unfold kept. by rewrite Hr.
  - by apply rewrites_listp.
  - cbn in IH. apply Forall_app in IH as [I1 I2].
    apply rewrites_if; [by apply rewrites_listp|by apply rewrites_else].
  - cbn in IH. apply Forall_app in IH as [I1 I2].
    apply rewrites_range; [by apply rewrites_listp|by apply rewrites_else].
  - cbn in IH. apply Forall_app in IH as [I1 I2].
    apply rewrites_with; [by apply rewrites_listp|by apply rewrites_else].
Qed.

End Frame.

(** X9.  Whatever the tree and the modes, the pass returns, keeps the name
    of the template, and the tree it leaves differs from the tree it
    received only by template nodes that stand, with the same position and
    line, in the slots of [render] and [partial] actions: no node is
    added, removed or moved, and no other node is altered. *)
Theorem pass_only_replaces_directives t raw render partial :
  exists t' ts err,
    processTree t raw render partial = Done (t', ts, err)
    /\ Name t' = Name t
    /\ rewrites (ListNodeP (Root t)) (ListNodeP (Root t')).
Proof.
  rewrite processTree_spec. eexists _, _, _. split; [done|]. split; [done|].
  apply (after_rewrites render partial (ListNodeP (Root t))).
Qed.

(** A rewriting keeps the length of a sequence. *)
Lemma rewrites_length lpos ns l' :
  rewrites (ListNodeP (Some (mkList lpos ns))) (ListNodeP l') ->
  exists ns', l' = Some (mkList lpos ns') /\ length ns' = length ns.
Proof.
  inversion 1; subst.
  - by exists ns.
  - exists ns'. split; [done|]. symmetry. by eapply Forall2_length.
Qed.

(** ** More on [pos] *)

Lemma rangeFrom_lt bs : forall i skip,
  Forall (fun ic => fst ic < i + Z.of_nat (length bs)) (rangeFrom bs i skip).
Proof.
  induction bs as [|b rest IH]; intros i skip; [constructor|].
  cbn [rangeFrom length]. destruct skip as [|k].
  - destruct (decodeRune (b :: rest)) as [char w]. constructor.
    + cbn [fst]. lia.
    + eapply Forall_impl; [apply IH|]. cbn. intros; lia.
  - eapply Forall_impl; [apply IH|]. cbn. intros; lia.
Qed.

Lemma filter_all {A} (k : A -> bool) l :
  Forall (fun x => k x = true) l -> List.filter k l = l.
Proof.
  induction 1 as [|x r Hx _ IH]; [done|]. cbn. by rewrite Hx, IH.
Qed.

Lemma length_bytesOf body :
  length (bytesOf body) = String.length body.
Proof.
  unfold bytesOf. rewrite length_map.
  induction body as [|c s IH]; [done|]. cbn. by rewrite IH.
Qed.

(** X11.  The edges of [pos]: an offset at or in front of the start of the
    text is line 1, column 1; an offset at or behind the end of the text
    is the position just behind the last character, the same for every
    such offset. *)
Theorem pos_at_the_edges body p :
  (p <= 0 -> pos body p = (1, 1))
  /\ (Z.of_nat (String.length body) <= p ->
      pos body p = pos body (Z.of_nat (String.length body))
      /\ pos body p = fold_left scanStep (map snd (rangeString body)) (1, 1)).
Proof.
  rewrite !pos_posSpec. unfold posSpec, charsBefore, rangeString. split.
  - intros Hp. by rewrite rangeFrom_ge.
  - intros Hp.
    assert (Hall : forall q, Z.of_nat (String.length body) <= q ->
              List.filter (fun ic => fst ic <? q) (rangeFrom (bytesOf body) 0 0)
              = rangeFrom (bytesOf body) 0 0).
    { intros q Hq. apply filter_all.
      eapply Forall_impl; [apply rangeFrom_lt|]. cbn. intros ic Hic.
      rewrite length_bytesOf in Hic. apply Z.ltb_lt. lia. }
    by rewrite !Hall by lia.
Qed.

Lemma pos_at_the_edges_witness :
  pos exampleSource 0 = (1, 1)
  /\ pos exampleSource 1000 = pos exampleSource 52.
Proof.
  destruct (pos_at_the_edges exampleSource 0) as [H0 _].
  destruct (pos_at_the_edges exampleSource 1000) as [_ H1].
  split; [apply H0; lia|]. refine (proj1 (H1 _)). vm_compute. discriminate.
Defined.

Lemma rangeFrom_count p bs : forall i skip,
  i <= p ->
  Z.of_nat (length (List.filter (fun ic => fst ic <? p) (rangeFrom bs i skip)))
  <= p - i.
Proof.
  induction bs as [|b rest IH]; intros i skip Hi; [cbn; lia|].
  cbn [rangeFrom]. destruct skip as [|k].
  - destruct (decodeRune (b :: rest)) as [char w]. cbn [List.filter fst].
    destruct (Z.ltb_spec i p).
    + cbn [length]. specialize (IH (i + 1) (Nat.pred w) ltac:(lia)). lia.
    + rewrite rangeFrom_ge by lia. cbn. lia.
  - destruct (Z.eq_dec i p) as [->|].
    + rewrite rangeFrom_ge by lia. cbn. lia.
    + specialize (IH (i + 1) k ltac:(lia)). lia.
Qed.

Lemma scan_sum cs : forall lc,
  1 <= snd lc ->
  fst (fold_left scanStep cs lc) + snd (fold_left scanStep cs lc)
  <= fst lc + snd lc + Z.of_nat (length cs).
Proof.
  induction cs as [|c r IH]; intros [line col] Hc; [cbn; lia|].
  cbn [fold_left length]. cbn [snd] in Hc. etransitivity.
  - apply IH. unfold scanStep. destruct (c =? 10); cbn [snd]; lia.
  - unfold scanStep. destruct (c =? 10); cbn [fst snd]; lia.
Qed.

(** X12.  Line and column are counted from 1 and never run ahead of the
    offset: for an offset [p >= 0], line + column is at most [p + 2]. *)
Theorem pos_is_bounded body p :
  0 <= p ->
  1 <= fst (pos body p) /\ 1 <= snd (pos body p)
  /\ fst (pos body p) + snd (pos body p) <= p + 2.
Proof.
  intros Hp. rewrite pos_posSpec. unfold posSpec.
  destruct (scan_one_based (charsBefore body p) (1, 1)) as [H1 H2];
    [done|done|].
  split; [done|]. split; [done|].
  etransitivity; [by apply scan_sum|]. cbn [fst snd].
  unfold charsBefore, rangeString. rewrite length_map.
  pose proof (rangeFrom_count p (bytesOf body) 0 0 Hp). lia.
Qed.

Lemma pos_is_bounded_witness :
  1 <= fst (pos exampleSource 22) /\ 1 <= snd (pos exampleSource 22)
  /\ fst (pos exampleSource 22) + snd (pos exampleSource 22) <= 22 + 2.
Proof. apply (pos_is_bounded exampleSource 22). lia. Defined.

Lemma rangeFrom_ascii p bs : forall i,
  forallb (fun b => b <? 128) bs = true ->
  map snd (List.filter (fun ic => fst ic <? p) (rangeFrom bs i 0))
  = take (Z.to_nat (p - i)) bs.
Proof.
  induction bs as [|b rest IH]; intros i Ha; [by rewrite take_nil|].
  cbn [forallb] in Ha. apply andb_prop in Ha as [Hb Hr].
  cbn [rangeFrom decodeRune]. rewrite Hb. cbn [Nat.pred List.filter fst].
  destruct (Z.ltb_spec i p).
  - replace (Z.to_nat (p - i)) with (S (Z.to_nat (p - (i + 1)))) by lia.
    cbn [map snd take]. by rewrite IH.
  - rewrite rangeFrom_ge by lia.
    by replace (Z.to_nat (p - i)) with 0%nat by lia.
Qed.

(** X13.  On a text of ASCII bytes [pos] scans exactly the first [p]
    bytes: a newline byte increments the line and resets the column, any
    other byte increments the column. *)
Theorem pos_on_ascii body p :
  isASCII body = true ->
  pos body p = fold_left scanStep (take (Z.to_nat p) (bytesOf body)) (1, 1).
Proof.
  intros Ha. rewrite pos_posSpec. unfold posSpec, charsBefore, rangeString.
  rewrite rangeFrom_ascii by done. by rewrite Z.sub_0_r.
Qed.

Lemma pos_on_ascii_witness :
  isASCII failingSource = true
  /\ pos failingSource 49
     = fold_left scanStep (take 49 (bytesOf failingSource)) (1, 1).
Proof.
  split; [vm_compute; reflexivity|].
  apply (pos_on_ascii failingSource 49). vm_compute. reflexivity.
Defined.

Lemma lor_big a b :
  0 <= a -> 0 <= b -> 16 <= a \/ 16 <= b -> 16 <= Z.lor a b.
Proof.
  intros Ha Hb H.
  assert (Hl : 4 <= Z.log2 (Z.lor a b)).
  { rewrite Z.log2_lor by done.
    destruct H as [H|H]; apply (Z.log2_le_mono 16) in H;
      change (Z.log2 16) with 4 in H; lia. }
  assert (H0 : 0 <= Z.lor a b) by (by apply Z.lor_nonneg).
  destruct (Z.eq_dec (Z.lor a b) 0) as [E|E];
    [rewrite E in Hl; cbn in Hl; lia|].
  apply (Z.log2_le_pow2 (Z.lor a b) 4) in Hl; [|lia].
  change (2 ^ 4) with 16 in Hl. lia.
Qed.

Lemma shifted_big x m k :
  0 <= k -> 16 <= 2 ^ k -> 1 <= Z.land x (Z.ones m) -> 0 <= m ->
  16 <= Z.shiftl (Z.land x (Z.ones m)) k.
Proof.
  intros Hk Hp Hx Hm. rewrite Z.shiftl_mul_pow2 by done. nia.
Qed.

Lemma shifted_nonneg x m k : 0 <= m -> 0 <= Z.shiftl (Z.land x (Z.ones m)) k.
Proof.
  intros Hm. apply Z.shiftl_nonneg, Z.land_nonneg. right.
  rewrite Z.ones_equiv. pose proof (Z.pow_pos_nonneg 2 m). lia.
Qed.

Lemma masked_nonneg x m : 0 <= m -> 0 <= Z.land x (Z.ones m).
Proof.
  intros Hm. apply Z.land_nonneg. right.
  rewrite Z.ones_equiv. pose proof (Z.pow_pos_nonneg 2 m). lia.
Qed.

Lemma isCont_bounds b : isCont b = true -> 128 <= b <= 191.
Proof. unfold isCont. intros [?%Z.leb_le ?%Z.leb_le]%andb_prop. lia. Qed.

(** A rune of more than one byte is no newline, and neither are the bytes
    behind its first one. *)
Lemma decodeRune_spec b0 t :
  (fst (decodeRune (b0 :: t)) = 10 <-> b0 = 10)
  /\ (1 <= snd (decodeRune (b0 :: t)))%nat
  /\ (Nat.pred (snd (decodeRune (b0 :: t))) <= length t)%nat
  /\ Forall (fun b => b <> 10)
       (take (Nat.pred (snd (decodeRune (b0 :: t)))) t).
Proof.
  assert (Herr : 128 <= b0 ->
    (fst (RuneError, 1%nat) = 10 <-> b0 = 10)
    /\ (1 <= snd (RuneError, 1%nat))%nat
    /\ (Nat.pred (snd (RuneError, 1%nat)) <= length t)%nat
    /\ Forall (fun b => b <> 10) (take (Nat.pred (snd (RuneError, 1%nat))) t)).
  { intros Hb. cbn. unfold RuneError. repeat split; try lia. constructor. }
  assert (Hbig : forall r w, 128 <= b0 -> 16 <= r ->
    (Nat.pred w <= length t)%nat -> (1 <= w)%nat ->
    Forall (fun b => b <> 10) (take (Nat.pred w) t) ->
    (fst (r, w) = 10 <-> b0 = 10)
    /\ (1 <= snd (r, w))%nat
    /\ (Nat.pred (snd (r, w)) <= length t)%nat
    /\ Forall (fun b => b <> 10) (take (Nat.pred (snd (r, w))) t)).
  { intros r w Hb Hr Hw H1 Hf. cbn. repeat split; try done; lia. }
  unfold decodeRune.
  destruct (Z.ltb_spec b0 128) as [Hlt|Hge].
  { cbn. repeat split; try lia. constructor. }
  destruct (andb (194 <=? b0) (b0 <=? 223)) eqn:H2.
  { apply andb_prop in H2 as [?%Z.leb_le ?%Z.leb_le].
    destruct t as [|b1 t]; [by apply Herr|].
    destruct (isCont b1) eqn:C1; [|by apply Herr].
    apply isCont_bounds in C1. apply Hbig; try done; cbn; try lia.
    - change 31 with (Z.ones 5). change 63 with (Z.ones 6).
      apply lor_big; [by apply shifted_nonneg|by apply masked_nonneg|].
      left. apply shifted_big; try done.
      rewrite Z.land_ones by done. Z.div_mod_to_equations. lia.
    - constructor; [lia|constructor]. }
  destruct (andb (224 <=? b0) (b0 <=? 239)) eqn:H3.
  { apply andb_prop in H3 as [?%Z.leb_le ?%Z.leb_le].
    destruct t as [|b1 [|b2 t]]; [by apply Herr|by apply Herr|].
    destruct (_ && _ && isCont b2) eqn:C; [|by apply Herr].
    apply andb_prop in C as [[L1%Z.leb_le L2%Z.leb_le]%andb_prop
                              C2%isCont_bounds].
    apply Hbig; try done; cbn; try lia.
    - change 15 with (Z.ones 4). change 63 with (Z.ones 6).
      apply lor_big; [|by apply masked_nonneg|].
      { apply Z.lor_nonneg. split; by apply shifted_nonneg. }
      left. apply lor_big; [by apply shifted_nonneg..|].
      destruct (Z.eqb_spec b0 224), (Z.eqb_spec b0 237).
      all: try (right; apply shifted_big; try done;
                rewrite Z.land_ones by done; Z.div_mod_to_equations; lia).
      all: left; apply shifted_big; try done;
           rewrite Z.land_ones by done; Z.div_mod_to_equations; lia.
    - destruct (Z.eqb_spec b0 224), (Z.eqb_spec b0 237);
        repeat constructor; lia. }
  destruct (andb (240 <=? b0) (b0 <=? 244)) eqn:H4; [|by apply Herr].
  apply andb_prop in H4 as [?%Z.leb_le ?%Z.leb_le].
  destruct t as [|b1 [|b2 [|b3 t]]]; try (by apply Herr).
  destruct (_ && _ && isCont b2 && isCont b3) eqn:C; [|by apply Herr].
  apply andb_prop in C as [[[L1%Z.leb_le L2%Z.leb_le]%andb_prop
                             C2%isCont_bounds]%andb_prop C3%isCont_bounds].
  apply Hbig; try done; cbn; try lia.
  - change 7 with (Z.ones 3). change 63 with (Z.ones 6).
    apply lor_big; [|by apply masked_nonneg|].
    { apply Z.lor_nonneg. split; [|by apply shifted_nonneg].
      apply Z.lor_nonneg. split; by apply shifted_nonneg. }
    left. apply lor_big; [|by apply shifted_nonneg|].
    { apply Z.lor_nonneg. split; by apply shifted_nonneg. }
    left. apply lor_big; [by apply shifted_nonneg..|].
    destruct (Z.eqb_spec b0 240), (Z.eqb_spec b0 244).
    all: try (right; apply shifted_big; try done;
              rewrite Z.land_ones by done; Z.div_mod_to_equations; lia).
    all: left; apply shifted_big; try done;
         rewrite Z.land_ones by done; Z.div_mod_to_equations; lia.
  - destruct (Z.eqb_spec b0 240), (Z.eqb_spec b0 244);
      repeat constructor; lia.
Qed.

Lemma scan_line cs : forall lc,
  fst (fold_left scanStep cs lc) = fst lc + newlines cs.
Proof.
  unfold newlines.
  induction cs as [|c r IH]; intros [line col]; [cbn; lia|].
  cbn [fold_left List.filter]. rewrite IH. unfold scanStep.
  destruct (c =? 10); cbn [fst length]; lia.
Qed.

Lemma newlines_cons b bs :
  newlines (b :: bs) = (if b =? 10 then 1 else 0) + newlines bs.
Proof.
  unfold newlines. cbn [List.filter]. destruct (b =? 10); cbn [length]; lia.
Qed.

(** The newline characters of the iterations in front of [p] are the
    newline bytes in front of [p]. *)
Lemma rangeFrom_newlines p bs : forall i skip,
  (skip <= length bs)%nat ->
  Forall (fun b => b <> 10) (take skip bs) ->
  newlines
    (map snd (List.filter (fun ic => fst ic <? p) (rangeFrom bs i skip)))
  = newlines (take (Z.to_nat (p - i)) bs).
Proof.
  induction bs as [|b rest IH]; intros i skip Hs Hf;
    [by rewrite take_nil|].
  cbn [rangeFrom]. destruct skip as [|k].
  - pose proof (decodeRune_spec b rest) as (Hr & Hw & Hl & Hn).
    destruct (decodeRune (b :: rest)) as [char w]. cbn [fst snd] in *.
    cbn [List.filter fst]. destruct (Z.ltb_spec i p).
    + replace (Z.to_nat (p - i)) with (S (Z.to_nat (p - (i + 1)))) by lia.
      cbn [map snd take]. rewrite !newlines_cons, IH by done.
      destruct (Z.eqb_spec char 10), (Z.eqb_spec b 10); tauto || lia.
    + rewrite rangeFrom_ge by lia.
      by replace (Z.to_nat (p - i)) with 0%nat by lia.
  - cbn [take length] in *. apply Forall_cons in Hf as [Hb Hf].
    destruct (Z.ltb_spec i p).
    + replace (Z.to_nat (p - i)) with (S (Z.to_nat (p - (i + 1)))) by lia.
      cbn [take]. rewrite newlines_cons, IH by (done || lia).
      destruct (Z.eqb_spec b 10); [done|lia].
    + rewrite rangeFrom_ge by lia.
      by replace (Z.to_nat (p - i)) with 0%nat by lia.
Qed.

(** X14.  On any text, valid UTF-8 or not, the line [pos] returns is one
    more than the number of newline bytes among the first [p] bytes: the
    bytes of a character of several bytes are never taken for a
    newline. *)
Theorem pos_line_counts_newlines body p :
  fst (pos body p) = 1 + newlines (take (Z.to_nat p) (bytesOf body)).
Proof.
  rewrite pos_posSpec. unfold posSpec, charsBefore, rangeString.
  rewrite scan_line. cbn [fst]. f_equal.
  rewrite rangeFrom_newlines; [by rewrite Z.sub_0_r|lia|constructor].
Qed.

(** X10.  A visit is safe: for any node, any pending error and any parent
    sequence with the index in range, [processNode] returns (no failed
    type assertion, no index out of range), and the parent sequence keeps
    its position, its length and every slot other than [index]. *)
Theorem visit_is_safe render partial n l i parentErr :
  (i < length (Nodes l))%nat ->
  exists v l',
    processNode render partial (Some l) i n parentErr = Done v
    /\ vParent v = Some l'
    /\ listPos l' = listPos l
    /\ length (Nodes l') = length (Nodes l)
    /\ forall j, j <> i -> Nodes l' !! j = Nodes l !! j.
Proof.
  intros Hi. destruct parentErr as [e|].
  { rewrite processNode_parentErr. by eexists _, l. }
  rewrite processNode_spec by (intros _; by exists l).
  assert (Hp : exists l',
            parentAfter render partial (Some l) i n = Some l'
            /\ listPos l' = listPos l
            /\ length (Nodes l') = length (Nodes l)
            /\ forall j, j <> i -> Nodes l' !! j = Nodes l !! j).
  { unfold parentAfter. destruct n; try (by exists l).
    destruct (rewriteOf render partial _) as [[nm pp]|]; [|by exists l].
    eexists. split; [done|]. cbn [listPos Nodes]. split; [done|].
    split; [apply length_insert|]. intros j Hj.
    by apply list_lookup_insert_ne. }
  destruct Hp as (l' & Hl & Hrest). by eexists _, l'.
Qed.

Lemma visit_is_safe_witness :
  exists v l',
    processNode true true (Some (mkList 0 [pipedPartial])) 0 pipedPartial None
    = Done v
    /\ vParent v = Some l'
    /\ listPos l' = listPos (mkList 0 [pipedPartial])
    /\ length (Nodes l') = length (Nodes (mkList 0 [pipedPartial]))
    /\ forall j, j <> 0%nat ->
         Nodes l' !! j = Nodes (mkList 0 [pipedPartial]) !! j.
Proof.
  apply (visit_is_safe true true pipedPartial (mkList 0 [pipedPartial]) 0 None).
  vm_compute. lia.
Defined.

(** X15.  [getActionArgs] reads the first three arguments only, and not
    the position of the command: arguments behind the third never change
    the function name, the name or the field; and a field it returns is
    the third argument, a field node. *)
Theorem getActionArgs_reads_three p q args :
  getActionArgs (mkCommand p args) = getActionArgs (mkCommand q (take 3 args))
  /\ forall fn name f,
       getActionArgs (mkCommand p args) = (fn, name, Some f) ->
       args !! 2%nat = Some f /\ exists fp ident, f = FieldNode fp ident.
Proof.
  unfold getActionArgs. cbn [Args]. split.
  - by rewrite !lookup_take_lt by lia.
  - intros fn name f [= _ _ H]. destruct (args !! 2%nat) as [[]|]; try done.
    injection H as <-. by eauto.
Qed.

Lemma getActionArgs_reads_three_witness :
  getActionArgs
    (mkCommand 2 [IdentifierNode 2 "partial";
                  StringNode 10 (quoted "p.html") "p.html";
                  FieldNode 19 ["User"]; NumberNode 25 "1"])
  = getActionArgs
      (mkCommand 0 [IdentifierNode 2 "partial";
                    StringNode 10 (quoted "p.html") "p.html";
                    FieldNode 19 ["User"]])
  /\ ([IdentifierNode 2 "partial";
       StringNode 10 (quoted "p.html") "p.html";
       FieldNode 19 ["User"]; NumberNode 25 "1"] !! 2%nat
      = Some (FieldNode 19 ["User"])
      /\ exists fp ident, FieldNode 19 ["User"] = FieldNode fp ident).
Proof.
  destruct (getActionArgs_reads_three 2 0
              [IdentifierNode 2 "partial";
               StringNode 10 (quoted "p.html") "p.html";
               FieldNode 19 ["User"]; NumberNode 25 "1"]) as [H1 H2].
  split; [exact H1|].
  exact (H2 "partial" "p.html" (FieldNode 19 ["User"]) eq_refl).
Defined.

(** X16.  Without a parent sequence the rewriter is refused before the
    modes are looked at: a [render] or [partial] action visited without a
    parent fails with the internal error whatever the modes and the index,
    even when its own mode is off; the node is left as it is and no name is
    collected.  Any other action is visited as with a parent. *)
Theorem directive_needs_a_parent render partial i apos aline pipe :
  (isDirective (ActionNode apos aline pipe) = true ->
   processNode render partial None i (ActionNode apos aline pipe) None
   = Done (mkVisited None (ActionNode apos aline pipe) []
             (Some (errorString
                      "processActionNode error: parent node is nil"))))
  /\ (isDirective (ActionNode apos aline pipe) = false ->
      processNode render partial None i (ActionNode apos aline pipe) None
      = Done (mkVisited None (ActionNode apos aline pipe)
                (actionName (ActionNode apos aline pipe)) None)).
Proof.
  unfold isDirective, actionName, actionArgs. cbn [processNode].
  destruct (Cmds pipe) as [|cmd rest]; [by split|].
  destruct (getActionArgs cmd) as [[fn name] field].
  split; by intros ->.
Qed.

Lemma directive_needs_a_parent_witness :
  processNode false false None 7 orphanRender None
  = Done (mkVisited None orphanRender []
            (Some (errorString "processActionNode error: parent node is nil")))
  /\ processNode true true None 7
       (actionAt 13 [IdentifierNode 13 "lower"; StringNode 19 (quoted "x") "x"])
       None
     = Done (mkVisited None
               (actionAt 13 [IdentifierNode 13 "lower";
                             StringNode 19 (quoted "x") "x"])
               ["x"] None).
Proof.
  split.
  - exact (proj1 (directive_needs_a_parent false false 7 2 1
                    (mkPipe 2 1 false []
                       [mkCommand 2 [IdentifierNode 2 "render"]]))
             eq_refl).
  - exact (proj2 (directive_needs_a_parent true true 7 13 1
                    (mkPipe 13 1 false []
                       [mkCommand 13 [IdentifierNode 13 "lower";
                                      StringNode 19 (quoted "x") "x"]]))
             eq_refl).
Defined.
